(** * nyorai2 indexer: a shallow embedding of [src/indexer.ts]

    The module under study has three exported functions:
    - [readFilesRecursively]  (the File Selector),
    - [initializePineconeIndex] (the Index Provisioner),
    - [indexFiles] (the Ingestion Driver).

    The file system, the Pinecone client and the OpenAI client are external
    collaborators.  The file system seen by the selector is a finite tree of
    directory entries; the remote collaborators are interfaces (type classes)
    over an abstract world state, and every call the code makes is recorded
    in a trace of events. *)

From Stdlib Require Import ZArith Lia.
From Stdlib Require Import Ascii String.
From Stdlib Require Import Floats.PrimFloat.
From stdpp Require Import base tactics option list strings gmap pretty.

Local Open Scope Z_scope.

(** ** JavaScript values shared by the three functions *)

(** A thrown JavaScript value.  The code never inspects it: it is logged and
    either rethrown or dropped. *)
Inductive error :=
| Error (message : string)
| TypeError (message : string).

#[global] Instance error_eq_dec : EqDecision error.
Proof. solve_decision. Defined.

(** What an awaited promise gives: a value, or a rejection. *)
Inductive result (A : Type) :=
| Ok (a : A)
| Err (e : error).
Arguments Ok {A} a.
Arguments Err {A} e.

Definition result_map {A B : Type} (f : A → B) (r : result A) : result B :=
  match r with
  | Ok a => Ok (f a)
  | Err e => Err e
  end.

(** [Promise.all] over promises that are already settled: the array of the
    values in the order of the promises, or a rejection when one of them is
    rejected.  Node rejects with the rejection that happens first in time;
    here it is the first one in the order of the array. *)
Fixpoint promise_all {A : Type} (ps : list (result A)) : result (list A) :=
  match ps with
  | [] => Ok []
  | Ok a :: ps' => result_map (cons a) (promise_all ps')
  | Err e :: _ => Err e
  end.

(** [Array.prototype.flat] on an array of arrays. *)
Definition flat {A : Type} (xss : list (list A)) : list A := concat xss.

(** ** Node's [path] module (POSIX) *)

Module path.

Definition CHAR_FORWARD_SLASH : ascii := "/"%char.
Definition CHAR_DOT : ascii := "."%char.
Definition sep : string := "/".

(** The local variables of [path.extname] in Node's [lib/path.js]. *)
Record scan := Scan {
  startDot : Z;
  startPart : Z;
  end_ : Z;
  matchedSlash : bool;
  preDotState : Z
}.

Definition scan0 : scan := Scan (-1) 0 (-1) true 0.

(** One turn of the backwards [for] loop of [extname], at index [i] on the
    character [code]; the boolean says that the loop breaks. *)
Definition scan_step (i : Z) (code : ascii) (st : scan) : scan * bool :=
  if Ascii.eqb code CHAR_FORWARD_SLASH then
    if negb (matchedSlash st)
    then (Scan (startDot st) (i + 1) (end_ st) (matchedSlash st) (preDotState st), true)
    else (st, false)
  else
    let st1 :=
      if end_ st =? -1
      then Scan (startDot st) (startPart st) (i + 1) false (preDotState st)
      else st in
    let st2 :=
      if Ascii.eqb code CHAR_DOT then
        if startDot st1 =? -1
        then Scan i (startPart st1) (end_ st1) (matchedSlash st1) (preDotState st1)
        else if negb (preDotState st1 =? 1)
             then Scan (startDot st1) (startPart st1) (end_ st1) (matchedSlash st1) 1
             else st1
      else if negb (startDot st1 =? -1)
           then Scan (startDot st1) (startPart st1) (end_ st1) (matchedSlash st1) (-1)
           else st1 in
    (st2, false).

(** The loop [for (let i = path.length - 1; i >= 0; --i)]: [rcs] are the
    characters at the indices [i], [i-1], ..., [0]. *)
Fixpoint scan_loop (rcs : list ascii) (i : Z) (st : scan) : scan :=
  match rcs with
  | [] => st
  | code :: rcs' =>
      let '(st', stop) := scan_step i code st in
      if stop then st' else scan_loop rcs' (i - 1) st'
  end.

(** [String.prototype.slice(from, to)] for [0 <= from <= to <= length]. *)
Definition slice (s : string) (from to : Z) : string :=
  String.substring (Z.to_nat from) (Z.to_nat (to - from)) s.

(** [path.extname(p)]. *)
Definition extname (p : string) : string :=
  let st := scan_loop (rev (String.list_ascii_of_string p))
                      (Z.of_nat (String.length p) - 1) scan0 in
  if (startDot st =? -1) || (end_ st =? -1) || (preDotState st =? 0)
     || ((preDotState st =? 1) && (startDot st =? end_ st - 1)
         && (startDot st =? startPart st + 1))
  then ""
  else slice p (startDot st) (end_ st).

(** [path.resolve(dir, name)] where [dir] is an absolute, normalised path
    and [name] is the name of a directory entry (one non-empty segment, not
    [.] nor [..]): the segment is appended after one separator. *)
Definition resolve (dir name : string) : string :=
  if bool_decide (dir = sep) then sep +:+ name else dir +:+ sep +:+ name.

End path.

(** ** The File Selector *)

Definition ignoredDirs : gset string :=
  list_to_set
    [ "node_modules"; ".git"; ".vscode"; "dist"; "build"; "coverage";
      "logs"; "tmp"; "temp" ].

Definition allowedExtensions : gset string :=
  list_to_set
    [ ".ts"; ".tsx"; ".js"; ".jsx"; ".md"; ".tf"; ".tfvars"; ".hcl";
      ".pkr.hcl"; ".Dockerfile"; ".dockerignore"; ".yml"; ".yaml" ].

(** [Set.prototype.has]. *)
Definition has (s : gset string) (x : string) : bool := bool_decide (x ∈ s).

(** A directory entry as [fs.readdir(dir, { withFileTypes: true })] gives it,
    with what lies below it:
    - [File]: an entry whose [isDirectory()] is false;
    - [Dir]: a directory, with the entries its own listing gives;
    - [BadDir]: a directory whose listing fails with an error. *)
#[warnings="-register-all"] Inductive node :=
| File (name : string)
| Dir (name : string) (entries : list node)
| BadDir (name : string) (err : error).

Definition node_name (n : node) : string :=
  match n with
  | File name | Dir name _ | BadDir name _ => name
  end.

Definition isDirectory (n : node) : bool :=
  match n with
  | File _ => false
  | Dir _ _ | BadDir _ _ => true
  end.

(** The [async (entry) => ...] callback of [readFilesRecursively], for the
    directory [dir].  The recursive call on a sub-directory is unfolded in
    the [Dir] and [BadDir] cases: it lists the sub-directory, maps this
    callback over the entries, awaits them all and flattens. *)
Fixpoint visit (dir : string) (entry : node) : result (list string) :=
  let res := path.resolve dir (node_name entry) in
  if isDirectory entry && has ignoredDirs (node_name entry) then Ok []
  else if negb (isDirectory entry)
          && negb (has allowedExtensions (path.extname (node_name entry)))
  then Ok []
  else
    match entry with
    | File _ => Ok [res]
    | Dir _ entries => result_map flat (promise_all (map (visit res) entries))
    | BadDir _ err => Err err
    end.

(** [readFilesRecursively(dir)], where [listing] is what [fs.readdir(dir)]
    gives: an error, or the entries of [dir].  The [catch] block logs the
    error on the console and throws it again; that output is left out. *)
Definition readFilesRecursively (dir : string) (listing : result (list node))
  : result (list string) :=
  match listing with
  | Err e => Err e
  | Ok entries => result_map flat (promise_all (map (visit dir) entries))
  end.

(** The listing of the directory that an entry stands for. *)
Definition listing_of (n : node) : result (list node) :=
  match n with
  | File name => Err (Error "ENOTDIR")
  | Dir _ entries => Ok entries
  | BadDir _ err => Err err
  end.

(** *** What the claims about the selector speak of *)

(** Names as a file system gives them: not empty, no separator inside. *)
Fixpoint sepfree (s : string) : bool :=
  match s with
  | EmptyString => true
  | String c s' => negb (Ascii.eqb c path.CHAR_FORWARD_SLASH) && sepfree s'
  end.

Definition wf_name (name : string) : bool :=
  negb (bool_decide (name = "")) && sepfree name.

Fixpoint wf_node (n : node) : bool :=
  wf_name (node_name n) &&
  match n with
  | Dir _ entries => forallb wf_node entries
  | _ => true
  end.

(** [file_at dir entries above p]: the tree whose top listing is [entries],
    the listing of [dir], holds a file of path [p], and [above] are the names
    of the directories between [dir] and that file, outermost first. *)
Inductive file_at : string → list node → list string → string → Prop :=
| file_here dir entries name :
    File name ∈ entries →
    file_at dir entries [] (path.resolve dir name)
| file_below dir entries name sub above p :
    Dir name sub ∈ entries →
    file_at (path.resolve dir name) sub above p →
    file_at dir entries (name :: above) p.

(** [fails_in entries e]: the traversal of [entries] lists a directory
    whose listing fails with [e].  The traversal lists the directories that
    are not denied, below directories that are not denied. *)
Inductive fails_in : list node → error → Prop :=
| fails_here entries name e :
    BadDir name e ∈ entries → name ∉ ignoredDirs → fails_in entries e
| fails_below entries name sub e :
    Dir name sub ∈ entries → name ∉ ignoredDirs → fails_in sub e →
    fails_in entries e.

Definition listing_fails (listing : result (list node)) (e : error) : Prop :=
  match listing with
  | Err e' => e = e'
  | Ok entries => fails_in entries e
  end.

(** ** Values exchanged with the collaborators *)

(** A JavaScript number: an IEEE 754 binary64.  The code only passes the
    numbers of an embedding along. *)
Definition number : Type := PrimFloat.float.

Module RecordMetadata.
Record t := mk { path : string; text : string }.
End RecordMetadata.

Module PineconeRecord.
Record t := mk {
  id : string;
  values : list number;
  metadata : RecordMetadata.t
}.
End PineconeRecord.

Module EmbeddingCreateParams.
Record t := mk { model : string; input : string }.
End EmbeddingCreateParams.

Module Embedding.
Record t := mk { embedding : list number }.
End Embedding.

Module CreateEmbeddingResponse.
Record t := mk { data : list Embedding.t }.
End CreateEmbeddingResponse.

Inductive IndexSpec :=
| serverless (cloud region : string)
| pod (environment podType : string).

Module IndexModel.
Record t := mk {
  name : string;
  dimension : Z;
  spec : IndexSpec;
  status_ready : bool          (* [status.ready] *)
}.
End IndexModel.

Module IndexList.
(** The field [indexes] is optional in the response of [listIndexes]. *)
Record t := mk { indexes : option (list IndexModel.t) }.
End IndexList.

Module CreateIndexOptions.
Record t := mk { name : string; dimension : Z; spec : IndexSpec }.
End CreateIndexOptions.

(** ** Effects: calls on the collaborators, console output, exceptions *)

(** What the code does to the outside, in the order it does it. *)
Inductive event :=
| ReadFile (file : string)                             (* fs.readFile(file, 'utf8') *)
| EmbeddingsCreate (params : EmbeddingCreateParams.t)  (* openai.embeddings.create *)
| Upsert (indexName : string) (records : list PineconeRecord.t)
                                                       (* pc.index(indexName).upsert *)
| ListIndexes                                          (* pc.listIndexes() *)
| CreateIndex (options : CreateIndexOptions.t)         (* pc.createIndex *)
| DescribeIndex (indexName : string)                   (* pc.describeIndex *)
| SetTimeout (ms : Z)                                  (* awaiting setTimeout(resolve, ms) *)
| ConsoleLog (msg : string)
| ConsoleError (msg : string) (e : error).

(** The collaborators, over the state [W] of the world outside. *)
Class FileSystem (W : Type) := {
  fs_readFile : string → W → result string * W
}.

Class OpenAI (W : Type) := {
  embeddings_create :
    EmbeddingCreateParams.t → W → result CreateEmbeddingResponse.t * W
}.

Class Pinecone (W : Type) := {
  listIndexes : W → result IndexList.t * W;
  createIndex : CreateIndexOptions.t → W → result unit * W;
  describeIndex : string → W → result IndexModel.t * W
}.

(** The handle [pc.index(indexName)]. *)
Class PineconeIndex (W : Type) := {
  index_upsert : string → list PineconeRecord.t → W → result unit * W
}.

(** The passing of time while the code awaits a timer. *)
Class Timers (W : Type) := {
  elapse : Z → W → W
}.

(** How a piece of code ends: with a value, with an exception, or not within
    the number of loop turns that the model was given. *)
Inductive completion (A : Type) :=
| Normal (a : A)
| Throw (e : error)
| Pending.
Arguments Normal {A} a.
Arguments Throw {A} e.
Arguments Pending {A}.

Record outcome (W A : Type) := Outcome {
  completed : completion A;
  world : W;
  events : list event
}.
Arguments Outcome {W A} completed world events.
Arguments completed {W A} o.
Arguments world {W A} o.
Arguments events {W A} o.

Definition prog (W A : Type) : Type := W → outcome W A.

#[global] Instance prog_ret {W} : MRet (prog W) :=
  λ A a w, Outcome (Normal a) w [].

#[global] Instance prog_bind {W} : MBind (prog W) :=
  λ A B k c w,
    let o := c w in
    match completed o with
    | Normal a =>
        let o' := k a (world o) in
        Outcome (completed o') (world o') (events o ++ events o')
    | Throw e => Outcome (Throw e) (world o) (events o)
    | Pending => Outcome Pending (world o) (events o)
    end.

Definition throw {W A} (e : error) : prog W A :=
  λ w, Outcome (Throw e) w [].

Definition pending {W A} : prog W A :=
  λ w, Outcome Pending w [].

(** [try { body } catch (error) { handler }]. *)
Definition try_catch {W A} (body : prog W A) (handler : error → prog W A)
  : prog W A :=
  λ w,
    let o := body w in
    match completed o with
    | Throw e =>
        let o' := handler e (world o) in
        Outcome (completed o') (world o') (events o ++ events o')
    | _ => o
    end.

(** An awaited call on a collaborator. *)
Definition call {W A} (ev : event) (op : W → result A * W) : prog W A :=
  λ w,
    let '(r, w') := op w in
    Outcome (match r with Ok a => Normal a | Err e => Throw e end) w' [ev].

Definition console_log {W} (msg : string) : prog W unit :=
  λ w, Outcome (Normal tt) w [ConsoleLog msg].

Definition console_error {W} (msg : string) (e : error) : prog W unit :=
  λ w, Outcome (Normal tt) w [ConsoleError msg e].

(** [await new Promise((resolve) => setTimeout(resolve, ms))]. *)
Definition sleep `{Timers W} (ms : Z) : prog W unit :=
  λ w, Outcome (Normal tt) (elapse ms w) [SetTimeout ms].

(** The newline character of a template literal. *)
Definition nl : string := String (ascii_of_nat 10) "".

(** ** The Index Provisioner *)

(** [Array.prototype.includes] on an array of strings. *)
Definition includes (xs : list string) (x : string) : bool :=
  bool_decide (x ∈ xs).

(** The request of line 74. *)
Definition create_request (indexName : string) : CreateIndexOptions.t :=
  CreateIndexOptions.mk indexName 1536 (serverless "aws" "us-east-1").

Definition waiting_notice (indexName : string) : string :=
  "Waiting for Pinecone index '" +:+ indexName +:+ "' to be ready...".

(** The loop [while (!isReady) { ... }], entered with [isReady = false].
    [fuel] bounds the number of turns the model follows; the code has no
    such bound. *)
Fixpoint wait_until_ready `{Pinecone W, Timers W}
    (fuel : nat) (indexName : string) : prog W unit :=
  match fuel with
  | O => pending
  | S fuel' =>
      indexDescription ← call (DescribeIndex indexName) (describeIndex indexName);
      if IndexModel.status_ready indexDescription
      then mret tt
      else
        console_log (waiting_notice indexName);;
        sleep 2000;;
        wait_until_ready fuel' indexName
  end.

Definition initializePineconeIndex `{Pinecone W, Timers W}
    (fuel : nat) (indexName : string) : prog W unit :=
  try_catch
    (response ← call ListIndexes listIndexes;
     let existingIndexes := IndexList.indexes response in
     let indexNames := map IndexModel.name <$> existingIndexes in
     (match indexNames with
      | Some names =>
          if negb (includes names indexName)
          then call (CreateIndex (create_request indexName))
                    (createIndex (create_request indexName))
          else mret tt
      | None =>
          call (CreateIndex (create_request indexName))
               (createIndex (create_request indexName))
      end);;
     wait_until_ready fuel indexName)
    (λ error,
       console_error "Error initializing Pinecone index:" error;;
       throw error).

(** The run of the provisioner once the listing has answered: the request
    for a new index when [create] holds, then the wait; an exception of
    either is logged and thrown again. *)
Definition after_listing `{Pinecone W, Timers W}
    (create : bool) (fuel : nat) (indexName : string) (w1 : W)
  : outcome W unit :=
  try_catch
    ((if create
      then call (CreateIndex (create_request indexName))
                (createIndex (create_request indexName))
      else mret tt);;
     wait_until_ready fuel indexName)
    (λ error,
       console_error "Error initializing Pinecone index:" error;;
       throw error) w1.

(** The world before the [k]-th poll of the loop (from 0), and what that
    poll answers, when no earlier poll has ended the loop. *)
Fixpoint poll_world `{Pinecone W, Timers W}
    (indexName : string) (k : nat) (w : W) : W :=
  match k with
  | O => w
  | S k' =>
      elapse 2000 (snd (describeIndex indexName (poll_world indexName k' w)))
  end.

Definition poll `{Pinecone W, Timers W}
    (indexName : string) (k : nat) (w : W) : result IndexModel.t :=
  fst (describeIndex indexName (poll_world indexName k w)).

(** A poll ends the loop when it reports [ready: true] or raises. *)
Definition ends_wait (r : result IndexModel.t) : bool :=
  match r with
  | Ok d => IndexModel.status_ready d
  | Err _ => true
  end.

(** How the loop ends at the poll that ends it. *)
Definition wait_result (r : result IndexModel.t) : completion unit :=
  match r with
  | Ok _ => Normal tt
  | Err e => Throw e
  end.

(** The events of one turn of the loop that does not end it. *)
Definition waiting_turn (indexName : string) : list event :=
  [ DescribeIndex indexName;
    ConsoleLog (waiting_notice indexName);
    SetTimeout 2000 ].

(** ** The Ingestion Driver *)

Definition embedding_model : string := "text-embedding-3-small".

(** The template literal of line 112. *)
Definition contentWithFilePath (file content : string) : string :=
  "File path: " +:+ file +:+ nl +:+ nl +:+ content.

(** [embedding.data[0].embedding]; reading a property of [undefined]
    throws a [TypeError]. *)
Definition first_embedding {W} (response : CreateEmbeddingResponse.t)
  : prog W (list number) :=
  match CreateEmbeddingResponse.data response with
  | d :: _ => mret (Embedding.embedding d)
  | [] => throw (TypeError "Cannot read properties of undefined (reading 'embedding')")
  end.

Definition index_entry (file text : string) (vector : list number)
  : PineconeRecord.t :=
  PineconeRecord.mk file vector (RecordMetadata.mk file text).

(** The body of the [try] block of the loop, up to [successfulCount++]. *)
Definition index_one `{FileSystem W, OpenAI W, PineconeIndex W}
    (file indexName : string) (dryrunMode : bool) : prog W unit :=
  content ← call (ReadFile file) (fs_readFile file);
  let contentWithFilePath := contentWithFilePath file content in
  if dryrunMode
  then console_log ("[Dry Run] Indexed file: " +:+ file)
  else
    embedding ← call (EmbeddingsCreate
                        (EmbeddingCreateParams.mk embedding_model contentWithFilePath))
                     (embeddings_create
                        (EmbeddingCreateParams.mk embedding_model contentWithFilePath));
    vector ← first_embedding embedding;
    call (Upsert indexName [index_entry file contentWithFilePath vector])
         (index_upsert indexName [index_entry file contentWithFilePath vector]);;
    console_log ("Indexed file: " +:+ file).

(** The loop [for (const file of files)], with the value of
    [successfulCount] on entry; it gives its value on exit. *)
Fixpoint for_files `{FileSystem W, OpenAI W, PineconeIndex W}
    (files : list string) (indexName : string) (dryrunMode : bool)
    (successfulCount : nat) : prog W nat :=
  match files with
  | [] => mret successfulCount
  | file :: files' =>
      successfulCount' ←
        try_catch
          (index_one file indexName dryrunMode;;
           mret (successfulCount + 1)%nat)
          (λ error,
             console_error ("Error indexing file " +:+ file +:+ ":") error;;
             mret successfulCount);
      for_files files' indexName dryrunMode successfulCount'
  end.

(** The summary of lines 141-149. *)
Definition summary (dryrunMode : bool) (successfulCount total : nat)
    (indexName : string) : string :=
  "Successfully " +:+
  (if dryrunMode then "simulated indexing" else "indexed") +:+
  " " +:+ pretty successfulCount +:+ " out of " +:+ pretty total +:+
  " files in Pinecone under index '" +:+ indexName +:+ "'" +:+
  (if dryrunMode then " (dry run)" else "").

(** [indexFiles(files, indexName, { indexer, embedder, dryrunMode })] from
    line 107 on, with the handle [pc.index(indexName)] of line 106 in hand;
    the whole call, handle included, is [indexFiles_call]. *)
Definition indexFiles `{FileSystem W, OpenAI W, PineconeIndex W}
    (files : list string) (indexName : string) (dryrunMode : bool)
  : prog W unit :=
  successfulCount ← for_files files indexName dryrunMode 0%nat;
  console_log (summary dryrunMode successfulCount (length files) indexName).

(** *** What the claims about the driver speak of *)

(** A file fails when its read fails, or (outside dry-run mode) when the
    embedding call fails or gives no embedding, or when the upsert fails. *)
Definition processing_fails `{FileSystem W, OpenAI W, PineconeIndex W}
    (file indexName : string) (dryrunMode : bool) (w : W) : bool :=
  match fs_readFile file w with
  | (Err _, _) => true
  | (Ok content, w1) =>
      if dryrunMode then false
      else
        let text := "File path: " +:+ file +:+ nl +:+ nl +:+ content in
        match embeddings_create (EmbeddingCreateParams.mk embedding_model text) w1 with
        | (Err _, _) => true
        | (Ok response, w2) =>
            match CreateEmbeddingResponse.data response with
            | [] => true
            | d :: _ =>
                let entry :=
                  PineconeRecord.mk file (Embedding.embedding d)
                                    (RecordMetadata.mk file text) in
                match index_upsert indexName [entry] w2 with
                | (Err _, _) => true
                | (Ok _, _) => false
                end
            end
        end
  end.

(** The number of files of a run that fail, each in the world that the run
    has reached when its turn comes. *)
Fixpoint failed_count `{FileSystem W, OpenAI W, PineconeIndex W}
    (files : list string) (indexName : string) (dryrunMode : bool) (w : W)
  : nat :=
  match files with
  | [] => 0%nat
  | file :: files' =>
      ((if processing_fails file indexName dryrunMode w then 1 else 0) +
       failed_count files' indexName dryrunMode
         (world (index_one file indexName dryrunMode w)))%nat
  end.

(** The number of files whose read succeeds, when the reads are the only
    calls made. *)
Fixpoint readable_count `{FileSystem W} (files : list string) (w : W) : nat :=
  match files with
  | [] => 0%nat
  | file :: files' =>
      let '(r, w') := fs_readFile file w in
      ((match r with Ok _ => 1 | Err _ => 0 end) + readable_count files' w')%nat
  end.

(** The world after the files have been read, and nothing else done. *)
Fixpoint after_reads `{FileSystem W} (files : list string) (w : W) : W :=
  match files with
  | [] => w
  | file :: files' => after_reads files' (snd (fs_readFile file w))
  end.

(** The files read, the requests for a new index and the records upserted,
    in the order of a trace. *)
Definition reads (tr : list event) : list string :=
  omap (λ ev, match ev with ReadFile f => Some f | _ => None end) tr.

Definition creations (tr : list event) : list CreateIndexOptions.t :=
  omap (λ ev, match ev with CreateIndex o => Some o | _ => None end) tr.

Definition upserts (tr : list event) : list (list PineconeRecord.t) :=
  omap (λ ev, match ev with Upsert _ rs => Some rs | _ => None end) tr.

Definition is_remote_call (ev : event) : bool :=
  match ev with
  | EmbeddingsCreate _ | Upsert _ _ | ListIndexes | CreateIndex _
  | DescribeIndex _ => true
  | _ => false
  end.

(** What the [catch] block of the loop logs for a file. *)
Definition catch_events (file : string) (c : completion unit) : list event :=
  match c with
  | Throw e => [ConsoleError ("Error indexing file " +:+ file +:+ ":") e]
  | _ => []
  end.

Definition count_after (successfulCount : nat) (c : completion unit) : nat :=
  match c with
  | Normal _ => (successfulCount + 1)%nat
  | _ => successfulCount
  end.

(** ** A deterministic world: an unchanged file set, an embedder that is a
    function of its input, and one index *)

(** Modelled from the spec: the vector store is not part of the repository.
    An index holds records; upserting a record whose id is already there
    replaces the record in place, and a new id is added at the end. *)
Fixpoint upsert_record (r : PineconeRecord.t) (store : list PineconeRecord.t)
  : list PineconeRecord.t :=
  match store with
  | [] => [r]
  | x :: store' =>
      if bool_decide (PineconeRecord.id x = PineconeRecord.id r)
      then r :: store'
      else x :: upsert_record r store'
  end.

Definition upsert_records (rs : list PineconeRecord.t)
    (store : list PineconeRecord.t) : list PineconeRecord.t :=
  foldl (λ s r, upsert_record r s) store rs.

(** The record of an index with a given id. *)
Fixpoint fetch (k : string) (store : list PineconeRecord.t)
  : option PineconeRecord.t :=
  match store with
  | [] => None
  | x :: store' =>
      if bool_decide (PineconeRecord.id x = k) then Some x else fetch k store'
  end.

Definition ids (store : list PineconeRecord.t) : list string :=
  map PineconeRecord.id store.

Definition det_fs (content : string → result string)
  : FileSystem (list PineconeRecord.t) :=
  {| fs_readFile file w := (content file, w) |}.

Definition det_openai
    (embed : EmbeddingCreateParams.t → result CreateEmbeddingResponse.t)
  : OpenAI (list PineconeRecord.t) :=
  {| embeddings_create params w := (embed params, w) |}.

(** The store may refuse records (too large, wrong dimension), always the
    same ones. *)
Definition det_index (accepts : list PineconeRecord.t → bool)
  : PineconeIndex (list PineconeRecord.t) :=
  {| index_upsert indexName rs w :=
       if accepts rs then (Ok tt, upsert_records rs w)
       else (Err (Error "upsert rejected"), w) |}.

(** The record that a run asks the store to upsert for a file: none when
    the read or the embedding fails. *)
Definition attempted (content : string → result string)
    (embed : EmbeddingCreateParams.t → result CreateEmbeddingResponse.t)
    (file : string) : option PineconeRecord.t :=
  match content file with
  | Ok c =>
      match embed (EmbeddingCreateParams.mk embedding_model
                     (contentWithFilePath file c)) with
      | Ok response =>
          match CreateEmbeddingResponse.data response with
          | d :: _ =>
              Some (index_entry file (contentWithFilePath file c)
                      (Embedding.embedding d))
          | [] => None
          end
      | Err _ => None
      end
  | Err _ => None
  end.

(** What the turn of the loop for a file makes of the index. *)
Definition store_step (content : string → result string)
    (embed : EmbeddingCreateParams.t → result CreateEmbeddingResponse.t)
    (accepts : list PineconeRecord.t → bool)
    (store : list PineconeRecord.t) (file : string) : list PineconeRecord.t :=
  match attempted content embed file with
  | Some r => if accepts [r] then upsert_record r store else store
  | None => store
  end.

(** ** Small worlds to run the code in *)

(** A control plane whose answers are scripted: the listing is fixed, and
    the index reports ready from the [ready_from]-th description on, or
    never.  The world counts the descriptions made. *)
Definition described (indexName : string) (ready : bool) : IndexModel.t :=
  IndexModel.mk indexName 1536 (serverless "aws" "us-east-1") ready.

Definition scripted_pinecone (listing : result IndexList.t)
    (ready_from : option nat) : Pinecone nat :=
  {| listIndexes w := (listing, w);
     createIndex options w := (Ok tt, w);
     describeIndex indexName w :=
       (Ok (described indexName
              (match ready_from with
               | Some n => bool_decide (n ≤ w)%nat
               | None => false
               end)),
        S w) |}.

Definition idle_timers : Timers nat := {| elapse ms w := w |}.

(** A file set with the single file [/repo/f1]. *)
Definition one_file (file : string) : result string :=
  if bool_decide (file = "/repo/f1") then Ok "hello"
  else Err (Error "ENOENT: no such file or directory").

Definition unit_vector : list number := [1%float; 0%float].

Definition constant_embedder (params : EmbeddingCreateParams.t)
  : result CreateEmbeddingResponse.t :=
  Ok (CreateEmbeddingResponse.mk [Embedding.mk unit_vector]).

(** ** Paths as segments below a directory *)

(** What [path.resolve] appends to: the directory, or nothing for the root. *)
Definition base (dir : string) : string :=
  if bool_decide (dir = path.sep) then "" else dir.

(** The segments [names], each after a separator. *)
Fixpoint below (names : list string) : string :=
  match names with
  | [] => ""
  | name :: names' => path.sep +:+ name +:+ below names'
  end.

(** A string that is empty or starts with a separator. *)
Definition at_boundary (s : string) : Prop :=
  s = "" ∨ ∃ s', s = path.sep +:+ s'.

(** The paths that the selector can give for the directory [dir]: a file
    name below directories that are not denied. *)
Definition selectable (dir p : string) : Prop :=
  ∃ above name,
    p = base dir +:+ below (above ++ [name]) ∧
    Forall (λ d, wf_name d = true ∧ d ∉ ignoredDirs) above ∧
    wf_name name = true.

(** ** More of what the properties speak of *)

(** Names without a dot. *)
Fixpoint dotfree (s : string) : bool :=
  match s with
  | EmptyString => true
  | String c s' => negb (Ascii.eqb c path.CHAR_DOT) && dotfree s'
  end.

(** [picked dir entries p]: [p] is the path of a file of the tree below
    [dir] whose extension is allowed and that no denied directory name lies
    above. *)
Inductive picked : string → list node → string → Prop :=
| picked_here dir entries name :
    File name ∈ entries →
    path.extname name ∈ allowedExtensions →
    picked dir entries (path.resolve dir name)
| picked_below dir entries name sub p :
    Dir name sub ∈ entries →
    name ∉ ignoredDirs →
    picked (path.resolve dir name) sub p →
    picked dir entries p.

(** No two entries of one directory have the same name, at every depth
    below an entry. *)
Fixpoint distinct_names (n : node) : bool :=
  match n with
  | Dir _ entries =>
      bool_decide (NoDup (map node_name entries))
      && forallb distinct_names entries
  | _ => true
  end.

(** The [console.error] lines and the calls on the remote collaborators of a
    trace, in order. *)
Definition console_errors (tr : list event) : list (string * error) :=
  omap (λ ev, match ev with
              | ConsoleError msg e => Some (msg, e)
              | _ => None
              end) tr.

Definition remote_calls (tr : list event) : list event :=
  filter (λ ev, is_remote_call ev = true) tr.

(** The first argument of the [console.error] of the provisioner. *)
Definition initialize_error : string := "Error initializing Pinecone index:".

(** What an event of a run of the driver over [files] for the index
    [indexName] may be. *)
Definition about_files (files : list string) (indexName : string)
    (ev : event) : Prop :=
  match ev with
  | ReadFile file => file ∈ files
  | EmbeddingsCreate params =>
      EmbeddingCreateParams.model params = "text-embedding-3-small" ∧
      ∃ file content,
        file ∈ files ∧
        EmbeddingCreateParams.input params
          = "File path: " +:+ file +:+ nl +:+ nl +:+ content
  | Upsert name records =>
      name = indexName ∧
      ∃ file content vector,
        file ∈ files ∧
        records = [PineconeRecord.mk file vector
                     (RecordMetadata.mk file
                        ("File path: " +:+ file +:+ nl +:+ nl +:+ content))]
  | ConsoleLog _ | ConsoleError _ _ => True
  | ListIndexes | CreateIndex _ | DescribeIndex _ | SetTimeout _ => False
  end.

(** The files of a run that fail, in order, each in the world that the run
    has reached when its turn comes. *)
Fixpoint failed_files `{FileSystem W, OpenAI W, PineconeIndex W}
    (files : list string) (indexName : string) (dryrunMode : bool) (w : W)
  : list string :=
  match files with
  | [] => []
  | file :: files' =>
      (if processing_fails file indexName dryrunMode w then [file] else []) ++
      failed_files files' indexName dryrunMode
        (world (index_one file indexName dryrunMode w))
  end.

(** A control plane that refuses to create an index. *)
Definition refusing_pinecone (listing : result IndexList.t) (e : error)
  : Pinecone nat :=
  {| listIndexes w := (listing, w);
     createIndex options w := (Err e, w);
     describeIndex indexName w := (Ok (described indexName true), S w) |}.

(** An embedder that answers with an empty [data] array. *)
Definition empty_embedder (params : EmbeddingCreateParams.t)
  : result CreateEmbeddingResponse.t :=
  Ok (CreateEmbeddingResponse.mk []).

(** ** The call of the driver from its first line *)

(** [pc.index(indexName)] (line 106): the client makes the handle of an
    index without a call on the store, and throws when it refuses the
    name. *)
Class PineconeHandles := {
  pc_index : string → result unit
}.

(** The call [indexFiles(files, indexName, options)] from its first line:
    the handle is made first, before the loop and outside every [try], so
    that an exception of [pc.index] rejects the promise at once.
    [indexFiles] is the rest of the function, with the handle in hand. *)
Definition indexFiles_call
    `{PineconeHandles, FileSystem W, OpenAI W, PineconeIndex W}
    (files : list string) (indexName : string) (dryrunMode : bool)
  : prog W unit :=
  match pc_index indexName with
  | Ok _ => indexFiles files indexName dryrunMode
  | Err e => throw e
  end.

(** The events of the turn of the loop for [file]: the read of the file,
    then at most one embedding request, then at most one upsert. *)
Definition one_attempt (file : string) (turn : list event) : Prop :=
  ∃ rest,
    turn = ReadFile file :: rest ∧
    reads rest = [] ∧
    (remote_calls rest = [] ∨
     (∃ params, remote_calls rest = [EmbeddingsCreate params]) ∨
     (∃ params indexName records,
        remote_calls rest
        = [EmbeddingsCreate params; Upsert indexName records])).

(** A client that refuses the empty index name. *)
Definition strict_handles : PineconeHandles :=
  {| pc_index indexName :=
       if bool_decide (indexName = "")
       then Err (Error "the index name is empty")
       else Ok tt |}.

(** * Properties *)

(** ** Strings *)

Lemma append_cons c s t : String c s +:+ t = String c (s +:+ t).
Proof. reflexivity. Qed.

Lemma append_nil_l s : "" +:+ s = s.
Proof. reflexivity. Qed.

Lemma append_nil_r s : s +:+ "" = s.
Proof. induction s as [|c s IH]; [done|]. by rewrite append_cons, IH. Qed.

Lemma append_assoc s t u : (s +:+ t) +:+ u = s +:+ t +:+ u.
Proof. induction s as [|c s IH]; [done|]. by rewrite !append_cons, IH. Qed.

(** Two segments followed by a separator or by nothing are equal when the
    whole strings are. *)
Lemma segment_split a b x y :
  sepfree a = true → sepfree b = true →
  at_boundary x → at_boundary y →
  a +:+ x = b +:+ y → a = b ∧ x = y.
Proof.
  revert b. induction a as [|c a IH]; intros [|c' b] Ha Hb Hx Hy Heq.
  - done.
  - rewrite append_nil_l in Heq. subst x. rewrite append_cons in Hx.
    simpl in Hb. apply andb_prop in Hb as [Hc' _].
    destruct Hx as [Hx|[s' Hx]]; [done|].
    injection Hx as -> _. done.
  - rewrite append_nil_l in Heq. subst y. rewrite append_cons in Hy.
    simpl in Ha. apply andb_prop in Ha as [Hc _].
    destruct Hy as [Hy|[s' Hy]]; [done|].
    injection Hy as -> _. done.
  - rewrite !append_cons in Heq. injection Heq as -> Heq.
    simpl in Ha, Hb.
    apply andb_prop in Ha as [_ Ha]. apply andb_prop in Hb as [_ Hb].
    destruct (IH b Ha Hb Hx Hy Heq) as [-> ->]. done.
Qed.

Lemma below_boundary names : at_boundary (below names).
Proof. destruct names; [by left|right; eauto]. Qed.

Lemma below_app xs ys : below (xs ++ ys) = below xs +:+ below ys.
Proof.
  induction xs as [|x xs IH]; [done|].
  simpl. by rewrite IH, !append_assoc.
Qed.

Lemma below_inj xs ys :
  Forall (λ s, sepfree s = true) xs → Forall (λ s, sepfree s = true) ys →
  below xs = below ys → xs = ys.
Proof.
  intros Hxs. revert ys.
  induction Hxs as [|x xs Hx Hxs IH]; intros ys Hys Heq.
  - destruct ys; [done|]. discriminate Heq.
  - destruct Hys as [|y ys Hy Hys]; [discriminate Heq|].
    simpl in Heq. apply (inj (String.append path.sep)) in Heq.
    destruct (segment_split x y _ _ Hx Hy (below_boundary xs)
                (below_boundary ys) Heq) as [-> Heq'].
    f_equal. by apply IH.
Qed.

Lemma wf_name_sepfree name : wf_name name = true → sepfree name = true.
Proof. unfold wf_name. intros H. by apply andb_prop in H as [_ ?]. Qed.

Lemma wf_name_nonempty name : wf_name name = true → name ≠ "".
Proof.
  unfold wf_name. intros H Hn. apply andb_prop in H as [H _].
  rewrite bool_decide_eq_true_2 in H; done.
Qed.

Lemma resolve_base dir name :
  path.resolve dir name = base dir +:+ path.sep +:+ name.
Proof. unfold path.resolve, base. by case_bool_decide. Qed.

Lemma base_resolve dir name :
  name ≠ "" → base (path.resolve dir name) = path.resolve dir name.
Proof.
  intros Hname. unfold base. case_bool_decide as Heq; [|done].
  exfalso. unfold path.resolve in Heq. case_bool_decide as Hd.
  - destruct name; [done|]. discriminate Heq.
  - destruct dir as [|c dir]; [destruct name; [done|discriminate Heq]|].
    unfold path.sep in *. rewrite append_cons in Heq.
    injection Heq as -> Heq. destruct dir; discriminate Heq.
Qed.

(** ** The File Selector *)

Lemma node_nested_ind (P : node → Prop) :
  (∀ name, P (File name)) →
  (∀ name entries, Forall P entries → P (Dir name entries)) →
  (∀ name err, P (BadDir name err)) →
  ∀ n, P n.
Proof.
  intros HF HD HB. fix IH 1. intros [name|name entries|name err].
  - apply HF.
  - apply HD. induction entries as [|e es IHes]; constructor.
    + apply IH.
    + apply IHes.
  - apply HB.
Qed.

Lemma has_true s x : has s x = true ↔ x ∈ s.
Proof. unfold has. apply bool_decide_eq_true. Qed.

Lemma has_false s x : has s x = false ↔ x ∉ s.
Proof. unfold has. apply bool_decide_eq_false. Qed.

Lemma promise_all_Ok {A} (ps : list (result A)) xs :
  promise_all ps = Ok xs → ps = map Ok xs.
Proof.
  revert xs. induction ps as [|[a|e] ps IH]; intros xs H; simpl in H.
  - by injection H as <-.
  - destruct (promise_all ps) as [ys|e]; [|discriminate H].
    injection H as <-. simpl. f_equal. by apply IH.
  - discriminate H.
Qed.

Lemma promise_all_Err {A} (ps : list (result A)) e :
  promise_all ps = Err e → Err e ∈ ps.
Proof.
  induction ps as [|[a|e'] ps IH]; intros H; simpl in H.
  - discriminate H.
  - destruct (promise_all ps) as [ys|e'']; [discriminate H|].
    injection H as ->. right. by apply IH.
  - injection H as ->. left.
Qed.

Lemma promise_all_rejects {A} (ps : list (result A)) e :
  Err e ∈ ps → ∃ e', promise_all ps = Err e'.
Proof.
  induction ps as [|[a|e'] ps IH]; intros H.
  - by apply elem_of_nil in H.
  - apply elem_of_cons in H as [H|H]; [discriminate H|].
    destruct (IH H) as [e'' He]. exists e''. simpl. by rewrite He.
  - by exists e'.
Qed.

Lemma visit_File dir name :
  visit dir (File name) =
  if has allowedExtensions (path.extname name)
  then Ok [path.resolve dir name] else Ok [].
Proof. simpl. by destruct (has allowedExtensions _). Qed.

Lemma visit_Dir dir name entries :
  visit dir (Dir name entries) =
  if has ignoredDirs name then Ok []
  else readFilesRecursively (path.resolve dir name) (Ok entries).
Proof. simpl. by destruct (has ignoredDirs _). Qed.

Lemma visit_BadDir dir name e :
  visit dir (BadDir name e) = if has ignoredDirs name then Ok [] else Err e.
Proof. simpl. by destruct (has ignoredDirs _). Qed.

(** A path of the result comes from one of the entries. *)
Lemma read_Ok_elem dir entries out p :
  readFilesRecursively dir (Ok entries) = Ok out → p ∈ out →
  ∃ entry o, entry ∈ entries ∧ visit dir entry = Ok o ∧ p ∈ o.
Proof.
  unfold readFilesRecursively, result_map.
  destruct (promise_all _) as [outs|e] eqn:Hall; [|done].
  intros [= <-] Hp. apply promise_all_Ok in Hall.
  unfold flat in Hp. apply list_elem_of_In, in_concat in Hp as (o & Ho & Hp).
  assert (In (Ok o) (map (visit dir) entries)) as Hin.
  { rewrite Hall. by apply in_map. }
  apply in_map_iff in Hin as (entry & Hv & Hentry).
  exists entry, o. by rewrite <- !list_elem_of_In in *.
Qed.

Lemma read_Err_elem dir entries e :
  readFilesRecursively dir (Ok entries) = Err e →
  ∃ entry, entry ∈ entries ∧ visit dir entry = Err e.
Proof.
  unfold readFilesRecursively, result_map.
  destruct (promise_all _) as [outs|e'] eqn:Hall; [done|].
  intros [= ->]. apply promise_all_Err, list_elem_of_In, in_map_iff in Hall
    as (entry & Hv & Hentry).
  exists entry. by rewrite <- list_elem_of_In in *.
Qed.

Lemma read_rejects dir entries entry e :
  entry ∈ entries → visit dir entry = Err e →
  ∃ e', readFilesRecursively dir (Ok entries) = Err e'.
Proof.
  intros Hentry Hv.
  destruct (promise_all_rejects (map (visit dir) entries) e) as [e' He'].
  { rewrite <- Hv. by apply list_elem_of_In, in_map, list_elem_of_In. }
  exists e'. unfold readFilesRecursively, result_map. by rewrite He'.
Qed.

Lemma wf_entries_elem entries entry :
  forallb wf_node entries = true → entry ∈ entries → wf_node entry = true.
Proof.
  intros H Hin. rewrite forallb_forall in H. by apply H, list_elem_of_In.
Qed.

Lemma wf_node_name n : wf_node n = true → wf_name (node_name n) = true.
Proof. destruct n; simpl; intros H; by apply andb_prop in H as [? _]. Qed.

Lemma wf_Dir name entries :
  wf_node (Dir name entries) = true → forallb wf_node entries = true.
Proof. simpl. intros H. by apply andb_prop in H as [_ ?]. Qed.

Lemma selectable_below dir name p :
  wf_name name = true → name ∉ ignoredDirs →
  selectable (path.resolve dir name) p → selectable dir p.
Proof.
  intros Hwf Hname (above & file & -> & Habove & Hfile).
  exists (name :: above), file. split_and!; [|by constructor|done].
  rewrite base_resolve by by apply wf_name_nonempty.
  rewrite resolve_base. simpl. by rewrite !append_assoc.
Qed.

(** Every path that the selector gives lies below directories that are not
    denied. *)
Lemma visit_selectable entry :
  ∀ dir out p,
    wf_node entry = true → visit dir entry = Ok out → p ∈ out →
    selectable dir p.
Proof.
  induction entry as [name|name entries IH|name err] using node_nested_ind;
    intros dir out p Hwf Hv Hp.
  - rewrite visit_File in Hv. destruct (has allowedExtensions _).
    + injection Hv as <-. apply list_elem_of_singleton in Hp as ->.
      exists [], name. split_and!; [|done|by apply (wf_node_name (File name))].
      rewrite resolve_base. simpl. by rewrite append_nil_r.
    + injection Hv as <-. by apply elem_of_nil in Hp.
  - rewrite visit_Dir in Hv. destruct (has ignoredDirs name) eqn:Hden.
    { injection Hv as <-. by apply elem_of_nil in Hp. }
    destruct (read_Ok_elem _ _ _ _ Hv Hp) as (entry & o & Hentry & Hvo & Hpo).
    apply (selectable_below dir name).
    + by apply (wf_node_name (Dir name entries)).
    + by apply has_false.
    + rewrite Forall_forall in IH. apply (IH entry Hentry _ o); [|done..].
      eapply wf_entries_elem; [by apply (wf_Dir name)|done].
  - rewrite visit_BadDir in Hv. destruct (has ignoredDirs name); [|done].
    injection Hv as <-. by apply elem_of_nil in Hp.
Qed.

Lemma read_selectable dir entries out p :
  forallb wf_node entries = true →
  readFilesRecursively dir (Ok entries) = Ok out → p ∈ out →
  selectable dir p.
Proof.
  intros Hwf Hread Hp.
  destruct (read_Ok_elem _ _ _ _ Hread Hp) as (entry & o & Hentry & Hv & Hpo).
  apply (visit_selectable entry dir o); [|done..].
  by eapply wf_entries_elem.
Qed.

(** The path of a file of the tree, by the names above it. *)
Lemma file_at_path dir entries above p :
  file_at dir entries above p → forallb wf_node entries = true →
  ∃ name, p = base dir +:+ below (above ++ [name]) ∧
          Forall (λ d, wf_name d = true) above ∧ wf_name name = true.
Proof.
  induction 1 as [dir entries name Hin|dir entries name sub above p Hin _ IH];
    intros Hwf.
  - exists name. split_and!; [|done|].
    + rewrite resolve_base. simpl. by rewrite append_nil_r.
    + by apply (wf_node_name (File name)), (wf_entries_elem entries).
  - assert (wf_node (Dir name sub) = true) as Hd
      by by apply (wf_entries_elem entries).
    destruct (IH (wf_Dir _ _ Hd)) as (file & -> & Habove & Hfile).
    apply wf_node_name in Hd as Hname. simpl in Hname.
    exists file. split_and!; [|by constructor|done].
    rewrite base_resolve by by apply wf_name_nonempty.
    rewrite resolve_base. simpl. by rewrite !append_assoc.
Qed.



(** The deny-set is looked up for the entries of the listings only: the
    name of the directory that the selector is called on is not examined. *)
Example root_name_is_not_examined :
  readFilesRecursively "/work/node_modules" (Ok [File "c.ts"])
  = Ok ["/work/node_modules/c.ts"].
Proof. vm_compute. reflexivity. Qed.

(** C1: in every tree of well-formed names, a file that lies, at any depth,
    below a directory whose name is in the deny-set is not in the output of
    the selector, whatever its extension; and for a root that holds [a.ts],
    [b.png] and [node_modules/c.ts] the output is exactly [a.ts]. *)
Theorem denied_directories_are_pruned :
  (∀ dir entries above p out,
     forallb wf_node entries = true →
     file_at dir entries above p →
     (∃ d, d ∈ above ∧ d ∈ ignoredDirs) →
     readFilesRecursively dir (Ok entries) = Ok out →
     p ∉ out) ∧
  (∀ root,
     readFilesRecursively root
       (Ok [File "a.ts"; File "b.png"; Dir "node_modules" [File "c.ts"]])
     = Ok [path.resolve root "a.ts"]).
Proof.
  split.
  - intros dir entries above p out.
    intros Hwf Hat (d & Hd & Hden) Hread Hp.
    destruct (file_at_path _ _ _ _ Hat Hwf) as (name & -> & Habove & Hname).
    destruct (read_selectable _ _ _ _ Hwf Hread Hp)
      as (above' & name' & Heq & Habove' & Hname').
    apply (inj (String.append (base dir))) in Heq.
    apply below_inj in Heq.
    + apply app_inj_tail in Heq as [-> _].
      rewrite Forall_forall in Habove'. by destruct (Habove' d Hd).
    + apply Forall_app. split.
      * eapply Forall_impl; [exact Habove|]. intros ?. apply wf_name_sepfree.
      * constructor; [by apply wf_name_sepfree|done].
    + apply Forall_app. split.
      * eapply Forall_impl; [exact Habove'|]. intros ? [? _].
        by apply wf_name_sepfree.
      * constructor; [by apply wf_name_sepfree|done].
  - intros root.
    unfold readFilesRecursively. cbn [map].
    rewrite !visit_File, visit_Dir.
    replace (has allowedExtensions (path.extname "a.ts")) with true
      by (vm_compute; reflexivity).
    replace (has allowedExtensions (path.extname "b.png")) with false
      by (vm_compute; reflexivity).
    replace (has ignoredDirs "node_modules") with true
      by (vm_compute; reflexivity).
    reflexivity.
Qed.

Lemma denied_directories_are_pruned_witness :
  file_at "/repo"
    [File "a.ts"; File "b.png"; Dir "node_modules" [File "c.ts"]]
    ["node_modules"] "/repo/node_modules/c.ts" ∧
  "/repo/node_modules/c.ts" ∉ ["/repo/a.ts"].
Proof.
  assert (file_at "/repo"
            [File "a.ts"; File "b.png"; Dir "node_modules" [File "c.ts"]]
            ["node_modules"] "/repo/node_modules/c.ts") as Hat.
  { apply (file_below _ _ "node_modules" [File "c.ts"]).
    - do 2 right. left.
    - apply (file_here "/repo/node_modules" [File "c.ts"] "c.ts"). left. }
  split; [exact Hat|].
  apply (proj1 denied_directories_are_pruned "/repo"
           [File "a.ts"; File "b.png"; Dir "node_modules" [File "c.ts"]]
           ["node_modules"]).
  - vm_compute. reflexivity.
  - exact Hat.
  - exists "node_modules". split; [left|].
    apply has_true. vm_compute. reflexivity.
  - vm_compute. reflexivity.
Defined.

Lemma visit_Err_fails entry :
  ∀ dir e entries,
    visit dir entry = Err e → entry ∈ entries → fails_in entries e.
Proof.
  induction entry as [name|name sub IH|name err] using node_nested_ind;
    intros dir e entries Hv Hin.
  - rewrite visit_File in Hv. by destruct (has allowedExtensions _).
  - rewrite visit_Dir in Hv. destruct (has ignoredDirs name) eqn:Hden; [done|].
    destruct (read_Err_elem _ _ _ Hv) as (x & Hx & Hvx).
    apply (fails_below entries name sub); [done|by apply has_false|].
    rewrite Forall_forall in IH. by apply (IH x Hx _ _ sub Hvx).
  - rewrite visit_BadDir in Hv. destruct (has ignoredDirs name) eqn:Hden; [done|].
    injection Hv as ->. apply (fails_here entries name); [done|].
    by apply has_false.
Qed.

Lemma fails_in_rejects entries e :
  fails_in entries e →
  ∀ dir, ∃ e', readFilesRecursively dir (Ok entries) = Err e'.
Proof.
  induction 1 as [entries name e Hin Hden|entries name sub e Hin Hden _ IH];
    intros dir.
  - apply (read_rejects dir entries (BadDir name e) e); [done|].
    rewrite visit_BadDir. apply has_false in Hden. by rewrite Hden.
  - destruct (IH (path.resolve dir name)) as [e' He'].
    apply (read_rejects dir entries (Dir name sub) e'); [done|].
    rewrite visit_Dir. apply has_false in Hden. by rewrite Hden.
Qed.

(** C4: when the listing of a directory that the traversal lists (the root,
    or a directory that is not denied below directories that are not denied)
    raises an error, the selector gives no list: it rejects, with the error
    of such a listing. *)
Theorem listing_error_aborts dir listing :
  (∃ e, listing_fails listing e) →
  ∃ e, listing_fails listing e ∧ readFilesRecursively dir listing = Err e.
Proof.
  intros [e He]. destruct listing as [entries|e0].
  - destruct (fails_in_rejects entries e He dir) as [e' He'].
    exists e'. split; [|done]. simpl.
    destruct (read_Err_elem _ _ _ He') as (x & Hx & Hvx).
    by apply (visit_Err_fails x dir).
  - exists e0. by split.
Qed.

Lemma listing_error_aborts_witness :
  ∃ e,
    listing_fails
      (Ok [File "a.ts"; Dir "src" [File "b.ts"; BadDir "locked" (Error "EACCES")]]) e ∧
    readFilesRecursively "/repo"
      (Ok [File "a.ts"; Dir "src" [File "b.ts"; BadDir "locked" (Error "EACCES")]])
    = Err e.
Proof.
  apply (listing_error_aborts "/repo").
  exists (Error "EACCES"). simpl.
  apply (fails_below _ "src" [File "b.ts"; BadDir "locked" (Error "EACCES")]).
  - right. left.
  - apply has_false. vm_compute. reflexivity.
  - apply (fails_here _ "locked").
    + right. left.
    + apply has_false. vm_compute. reflexivity.
Defined.

(** A file is selected exactly when [path.extname] of its name is in the
    allow-set. *)
Lemma file_selected_iff dir name :
  (path.extname name ∈ allowedExtensions →
   visit dir (File name) = Ok [path.resolve dir name]) ∧
  (path.extname name ∉ allowedExtensions → visit dir (File name) = Ok []).
Proof.
  rewrite visit_File. split; intros H.
  - apply has_true in H. by rewrite H.
  - apply has_false in H. by rewrite H.
Qed.

(** C8: the allow-set holds [.dockerignore], but [path.extname] of the file
    name [.dockerignore] is the empty string, so the selector skips a file of
    that name. *)
Theorem dockerignore_is_skipped :
  ".dockerignore" ∈ allowedExtensions ∧
  path.extname ".dockerignore" = "" ∧
  ∀ dir, readFilesRecursively dir (Ok [File ".dockerignore"]) = Ok [].
Proof.
  split_and!.
  - apply has_true. vm_compute. reflexivity.
  - vm_compute. reflexivity.
  - intros dir. unfold readFilesRecursively. cbn [map]. rewrite visit_File.
    replace (has allowedExtensions (path.extname ".dockerignore")) with false
      by (vm_compute; reflexivity).
    reflexivity.
Qed.

(** ** Running programs *)

Ltac unfold_prog :=
  unfold mbind, prog_bind, mret, prog_ret, try_catch, call, console_log,
    console_error, sleep, throw, pending in *.

Lemma creations_app tr1 tr2 :
  creations (tr1 ++ tr2) = creations tr1 ++ creations tr2.
Proof. unfold creations. apply omap_app. Qed.

Lemma upserts_app tr1 tr2 : upserts (tr1 ++ tr2) = upserts tr1 ++ upserts tr2.
Proof. unfold upserts. apply omap_app. Qed.

Lemma reads_app tr1 tr2 : reads (tr1 ++ tr2) = reads tr1 ++ reads tr2.
Proof. unfold reads. apply omap_app. Qed.

(** ** The Index Provisioner *)

Section Provisioner.
Context {W : Type} {pc : Pinecone W} {timers : Timers W}.

Lemma wait_step fuel indexName w :
  wait_until_ready (S fuel) indexName w =
  match describeIndex indexName w with
  | (Err e, w1) => Outcome (Throw e) w1 [DescribeIndex indexName]
  | (Ok d, w1) =>
      if IndexModel.status_ready d
      then Outcome (Normal tt) w1 [DescribeIndex indexName]
      else
        let o := wait_until_ready fuel indexName (elapse 2000 w1) in
        Outcome (completed o) (world o) (waiting_turn indexName ++ events o)
  end.
Proof.
  simpl. unfold_prog. destruct (describeIndex indexName w) as [[d|e] w1].
  - simpl. by destruct (IndexModel.status_ready d).
  - done.
Qed.

Lemma poll_world_shift indexName k w :
  poll_world indexName (S k) w =
  poll_world indexName k (elapse 2000 (snd (describeIndex indexName w))).
Proof. induction k as [|k IH]; [done|]. simpl in *. by rewrite IH. Qed.

Lemma poll_shift indexName k w :
  poll indexName (S k) w =
  poll indexName k (elapse 2000 (snd (describeIndex indexName w))).
Proof. unfold poll. by rewrite poll_world_shift. Qed.

(** The loop followed for [fuel] turns: it has ended at the first poll
    that reports ready or raises, or it is still waiting. *)
Lemma wait_cases indexName fuel :
  ∀ w,
    let o := wait_until_ready fuel indexName w in
    (∃ k, (k < fuel)%nat ∧
          (∀ j, (j < k)%nat → ends_wait (poll indexName j w) = false) ∧
          ends_wait (poll indexName k w) = true ∧
          completed o = wait_result (poll indexName k w) ∧
          events o = concat (replicate k (waiting_turn indexName))
                       ++ [DescribeIndex indexName]) ∨
    ((∀ j, (j < fuel)%nat → ends_wait (poll indexName j w) = false) ∧
     completed o = Pending ∧
     events o = concat (replicate fuel (waiting_turn indexName))).
Proof.
  induction fuel as [|fuel IH]; intros w o.
  - right. split_and!; [lia|done..].
  - subst o. rewrite wait_step.
    destruct (describeIndex indexName w) as [[d|e] w1] eqn:Hd.
    + destruct (IndexModel.status_ready d) eqn:Hready.
      * left. exists 0%nat. unfold poll. simpl. rewrite Hd. simpl.
        split_and!; [lia|lia|done..].
      * assert (ends_wait (poll indexName 0 w) = false) as H0.
        { unfold poll. simpl. by rewrite Hd. }
        assert (elapse 2000 w1 =
                elapse 2000 (snd (describeIndex indexName w))) as Hw
          by by rewrite Hd.
        destruct (IH (elapse 2000 w1))
          as [(k & Hk & Hbefore & Hends & Hc & He)|(Hnone & Hc & He)].
        -- left. exists (S k). rewrite poll_shift, <- Hw.
           split_and!; [lia| |done|done|].
           ++ intros [|j] Hj; [done|]. rewrite poll_shift, <- Hw.
              apply Hbefore. lia.
           ++ cbn [events]. rewrite He. simpl. done.
        -- right. split_and!; [|done|].
           ++ intros [|j] Hj; [done|]. rewrite poll_shift, <- Hw.
              apply Hnone. lia.
           ++ cbn [events]. rewrite He. done.
    + left. exists 0%nat. unfold poll. simpl. rewrite Hd. simpl.
      split_and!; [lia|lia|done..].
Qed.

(** C6: the wait polls [describeIndex] with a delay of 2000 ms after each
    poll that does not end it; it ends exactly when some poll reports
    [ready: true] or raises, after any number of turns; and when no poll
    does, it is still polling after every number of turns. *)
Theorem wait_has_no_deadline indexName w :
  ((∃ fuel, completed (wait_until_ready fuel indexName w) ≠ Pending) ↔
   (∃ k, ends_wait (poll indexName k w) = true)) ∧
  (∀ k fuel,
     (∀ j, (j < k)%nat → ends_wait (poll indexName j w) = false) →
     ends_wait (poll indexName k w) = true →
     (k < fuel)%nat →
     completed (wait_until_ready fuel indexName w)
       = wait_result (poll indexName k w) ∧
     events (wait_until_ready fuel indexName w)
       = concat (replicate k [ DescribeIndex indexName;
                               ConsoleLog (waiting_notice indexName);
                               SetTimeout 2000 ])
           ++ [DescribeIndex indexName]) ∧
  ((∀ k, ends_wait (poll indexName k w) = false) →
   ∀ fuel,
     completed (wait_until_ready fuel indexName w) = Pending ∧
     events (wait_until_ready fuel indexName w)
       = concat (replicate fuel [ DescribeIndex indexName;
                                  ConsoleLog (waiting_notice indexName);
                                  SetTimeout 2000 ])).
Proof.
  assert (∀ k fuel,
    (∀ j, (j < k)%nat → ends_wait (poll indexName j w) = false) →
    ends_wait (poll indexName k w) = true →
    (k < fuel)%nat →
    completed (wait_until_ready fuel indexName w)
      = wait_result (poll indexName k w) ∧
    events (wait_until_ready fuel indexName w)
      = concat (replicate k (waiting_turn indexName))
          ++ [DescribeIndex indexName]) as Hfirst.
  { intros k fuel Hbefore Hends Hk.
    destruct (wait_cases indexName fuel w)
      as [(k' & Hk' & Hbefore' & Hends' & Hc & He)|(Hnone & _)].
    - assert (k' = k) as ->; [|done].
      destruct (Nat.lt_trichotomy k' k) as [Hlt|[Heq|Hgt]]; [|done|].
      + rewrite (Hbefore k' Hlt) in Hends'. done.
      + rewrite (Hbefore' k Hgt) in Hends. done.
    - rewrite (Hnone k Hk) in Hends. done. }
  split_and!.
  - split.
    + intros [fuel Hfuel].
      destruct (wait_cases indexName fuel w)
        as [(k & _ & _ & Hends & _)|(_ & Hc & _)]; [by exists k|done].
    + intros [k Hk]. exists (S k).
      destruct (wait_cases indexName (S k) w)
        as [(k' & _ & _ & _ & Hc & _)|(Hnone & _)].
      * rewrite Hc. by destruct (poll indexName k' w).
      * rewrite Hnone in Hk; [done|lia].
  - exact Hfirst.
  - intros Hnever fuel.
    destruct (wait_cases indexName fuel w)
      as [(k & _ & _ & Hends & _)|(_ & Hc & He)]; [|done].
    by rewrite Hnever in Hends.
Qed.

Lemma creations_wait fuel indexName :
  ∀ w, creations (events (wait_until_ready fuel indexName w)) = [].
Proof.
  induction fuel as [|fuel IH]; intros w; [done|].
  rewrite wait_step. destruct (describeIndex indexName w) as [[d|e] w1]; [|done].
  destruct (IndexModel.status_ready d); [done|].
  cbn [events]. rewrite creations_app. apply IH.
Qed.

Lemma initialize_listed fuel indexName w response w1 :
  listIndexes w = (Ok response, w1) →
  let create :=
    match IndexList.indexes response with
    | Some models => negb (includes (map IndexModel.name models) indexName)
    | None => true
    end in
  let o := after_listing create fuel indexName w1 in
  initializePineconeIndex fuel indexName w =
  Outcome (completed o) (world o) (ListIndexes :: events o).
Proof.
  intros Hl create o. subst o create.
  unfold initializePineconeIndex, after_listing. unfold_prog. rewrite Hl.
  simpl. destruct (IndexList.indexes response) as [models|]; simpl.
  - destruct (includes _ indexName); simpl.
    + destruct (completed (wait_until_ready fuel indexName w1)); simpl;
        by rewrite ?app_nil_r.
    + destruct (createIndex _ w1) as [[[]|e] w2]; simpl; [|done].
      destruct (completed (wait_until_ready fuel indexName w2)); simpl;
        by rewrite ?app_nil_r.
  - destruct (createIndex _ w1) as [[[]|e] w2]; simpl; [|done].
    destruct (completed (wait_until_ready fuel indexName w2)); simpl;
      by rewrite ?app_nil_r.
Qed.

Lemma after_listing_skip fuel indexName w1 :
  creations (events (after_listing false fuel indexName w1)) = [].
Proof.
  unfold after_listing. unfold_prog. simpl.
  pose proof (creations_wait fuel indexName w1) as Hw.
  destruct (completed (wait_until_ready fuel indexName w1)); simpl;
    rewrite ?creations_app, ?app_nil_r, ?Hw; done.
Qed.

Lemma after_listing_create fuel indexName w1 :
  ∃ rest,
    events (after_listing true fuel indexName w1)
      = CreateIndex (create_request indexName) :: rest ∧
    creations rest = [] ∧
    ∀ w2, createIndex (create_request indexName) w1 = (Ok tt, w2) →
          completed (after_listing true fuel indexName w1)
            = completed (wait_until_ready fuel indexName w2).
Proof.
  unfold after_listing. unfold_prog.
  destruct (createIndex _ w1) as [[[]|e] w2]; simpl.
  - pose proof (creations_wait fuel indexName w2) as Hw.
    destruct (completed (wait_until_ready fuel indexName w2)) eqn:Hc; simpl.
    + eexists. split_and!; [done|done|]. by intros ? [= <-].
    + eexists. split_and!; [done| |by intros ? [= <-]].
      by rewrite creations_app, Hw.
    + eexists. split_and!; [done|done|]. by intros ? [= <-].
  - eexists. split_and!; [done|done|]. intros ? [=].
Qed.

(** C5: once the listing has answered with a list of indexes, a run of the
    provisioner, of any length, makes no create-index request when the
    name is in the list, and exactly one, for that name with dimension
    1536 on serverless aws us-east-1, when it is not. *)
Theorem create_only_when_absent fuel indexName w response models w1 :
  listIndexes w = (Ok response, w1) →
  IndexList.indexes response = Some models →
  (indexName ∈ map IndexModel.name models →
   creations (events (initializePineconeIndex fuel indexName w)) = []) ∧
  (indexName ∉ map IndexModel.name models →
   creations (events (initializePineconeIndex fuel indexName w))
     = [CreateIndexOptions.mk indexName 1536 (serverless "aws" "us-east-1")]).
Proof.
  intros Hl Hmodels.
  rewrite (initialize_listed fuel indexName w response w1 Hl).
  rewrite Hmodels. cbn [events]. unfold includes. split; intros Hin.
  - rewrite bool_decide_eq_true_2 by done. simpl.
    apply after_listing_skip.
  - rewrite bool_decide_eq_false_2 by done. simpl.
    destruct (after_listing_create fuel indexName w1) as (rest & -> & Hrest & _).
    change (creations (CreateIndex (create_request indexName) :: rest))
      with (create_request indexName :: creations rest).
    by rewrite Hrest.
Qed.

(** C10: when the answer of the listing has no [indexes] field, the
    provisioner asks for the index to be created, right after the listing,
    and goes on to the wait when the creation succeeds. *)
Theorem missing_listing_creates fuel indexName w response w1 :
  listIndexes w = (Ok response, w1) →
  IndexList.indexes response = None →
  ∃ rest,
    events (initializePineconeIndex fuel indexName w)
      = ListIndexes
          :: CreateIndex (CreateIndexOptions.mk indexName 1536
                            (serverless "aws" "us-east-1"))
          :: rest ∧
    creations rest = [] ∧
    ∀ w2,
      createIndex (CreateIndexOptions.mk indexName 1536
                     (serverless "aws" "us-east-1")) w1 = (Ok tt, w2) →
      completed (initializePineconeIndex fuel indexName w)
        = completed (wait_until_ready fuel indexName w2).
Proof.
  intros Hl Hnone.
  rewrite (initialize_listed fuel indexName w response w1 Hl).
  rewrite Hnone. cbn [events completed].
  destruct (after_listing_create fuel indexName w1) as (rest & -> & Hrest & Hc).
  by exists rest.
Qed.

End Provisioner.

Lemma create_only_when_absent_witness :
  let pc := scripted_pinecone
              (Ok (IndexList.mk (Some [described "docs" true]))) (Some 0%nat) in
  creations (events (@initializePineconeIndex nat pc idle_timers 3 "docs" 0%nat))
    = [] ∧
  creations (events (@initializePineconeIndex nat pc idle_timers 3 "notes" 0%nat))
    = [CreateIndexOptions.mk "notes" 1536 (serverless "aws" "us-east-1")].
Proof.
  intros pc. split.
  - apply (proj1 (@create_only_when_absent nat pc idle_timers 3 "docs" 0%nat
                    (IndexList.mk (Some [described "docs" true]))
                    [described "docs" true] 0%nat eq_refl eq_refl)).
    simpl. left.
  - apply (proj2 (@create_only_when_absent nat pc idle_timers 3 "notes" 0%nat
                    (IndexList.mk (Some [described "docs" true]))
                    [described "docs" true] 0%nat eq_refl eq_refl)).
    simpl. intros H. apply list_elem_of_singleton in H. discriminate H.
Defined.

Lemma wait_has_no_deadline_witness :
  (let pc := scripted_pinecone (Ok (IndexList.mk None)) (Some 2%nat) in
   completed (@wait_until_ready nat pc idle_timers 5 "docs" 0%nat) = Normal tt ∧
   events (@wait_until_ready nat pc idle_timers 5 "docs" 0%nat)
     = [ DescribeIndex "docs";
         ConsoleLog "Waiting for Pinecone index 'docs' to be ready...";
         SetTimeout 2000;
         DescribeIndex "docs";
         ConsoleLog "Waiting for Pinecone index 'docs' to be ready...";
         SetTimeout 2000;
         DescribeIndex "docs" ]) ∧
  (let pc := scripted_pinecone (Ok (IndexList.mk None)) None in
   ∀ fuel,
     completed (@wait_until_ready nat pc idle_timers fuel "docs" 0%nat) = Pending).
Proof.
  split.
  - intros pc.
    apply (proj1 (proj2 (@wait_has_no_deadline nat pc idle_timers "docs" 0%nat))
             2%nat 5%nat).
    + intros [|[|j]] Hj; [reflexivity|reflexivity|lia].
    + reflexivity.
    + lia.
  - intros pc fuel.
    apply (proj2 (proj2 (@wait_has_no_deadline nat pc idle_timers "docs" 0%nat))).
    intros k. reflexivity.
Defined.

Lemma missing_listing_creates_witness :
  let pc := scripted_pinecone (Ok (IndexList.mk None)) (Some 0%nat) in
  ∃ rest,
    events (@initializePineconeIndex nat pc idle_timers 3 "docs" 0%nat)
      = ListIndexes
          :: CreateIndex (CreateIndexOptions.mk "docs" 1536
                            (serverless "aws" "us-east-1"))
          :: rest ∧
    creations rest = [] ∧
    ∀ w2,
      @createIndex nat pc
        (CreateIndexOptions.mk "docs" 1536 (serverless "aws" "us-east-1")) 0%nat
        = (Ok tt, w2) →
      completed (@initializePineconeIndex nat pc idle_timers 3 "docs" 0%nat)
        = completed (@wait_until_ready nat pc idle_timers 3 "docs" w2).
Proof.
  intros pc.
  apply (@missing_listing_creates nat pc idle_timers 3 "docs" 0%nat
           (IndexList.mk None) 0%nat eq_refl eq_refl).
Defined.

(** ** The Ingestion Driver *)

Section Driver.
Context {W : Type} {fs : FileSystem W} {openai : OpenAI W}
        {index : PineconeIndex W}.

(** The [try] body on one file, case by case. *)
Lemma index_one_run file indexName dryrunMode w :
  index_one file indexName dryrunMode w =
  match fs_readFile file w with
  | (Err e, w1) => Outcome (Throw e) w1 [ReadFile file]
  | (Ok content, w1) =>
      let text := contentWithFilePath file content in
      let request := EmbeddingCreateParams.mk embedding_model text in
      if dryrunMode
      then Outcome (Normal tt) w1
             [ReadFile file; ConsoleLog ("[Dry Run] Indexed file: " +:+ file)]
      else
        match embeddings_create request w1 with
        | (Err e, w2) =>
            Outcome (Throw e) w2 [ReadFile file; EmbeddingsCreate request]
        | (Ok response, w2) =>
            match CreateEmbeddingResponse.data response with
            | [] =>
                Outcome
                  (Throw (TypeError
                     "Cannot read properties of undefined (reading 'embedding')"))
                  w2 [ReadFile file; EmbeddingsCreate request]
            | d :: _ =>
                let entry := index_entry file text (Embedding.embedding d) in
                match index_upsert indexName [entry] w2 with
                | (Err e, w3) =>
                    Outcome (Throw e) w3
                      [ReadFile file; EmbeddingsCreate request;
                       Upsert indexName [entry]]
                | (Ok _, w3) =>
                    Outcome (Normal tt) w3
                      [ReadFile file; EmbeddingsCreate request;
                       Upsert indexName [entry];
                       ConsoleLog ("Indexed file: " +:+ file)]
                end
            end
        end
  end.
Proof.
  unfold index_one, first_embedding. unfold_prog.
  destruct (fs_readFile file w) as [[content|e] w1]; simpl; [|done].
  destruct dryrunMode; simpl; [done|].
  destruct (embeddings_create _ w1) as [[response|e] w2]; simpl; [|done].
  destruct (CreateEmbeddingResponse.data response) as [|d ds]; simpl; [done|].
  destruct (index_upsert indexName _ w2) as [[[]|e] w3]; simpl; done.
Qed.

Lemma index_one_completed file indexName dryrunMode w :
  completed (index_one file indexName dryrunMode w) =
  if processing_fails file indexName dryrunMode w
  then completed (index_one file indexName dryrunMode w)
  else Normal tt.
Proof.
  rewrite index_one_run. unfold processing_fails.
  destruct (fs_readFile file w) as [[content|e] w1]; simpl; [|done].
  destruct dryrunMode; simpl; [done|].
  fold (contentWithFilePath file content).
  destruct (embeddings_create _ w1) as [[response|e] w2]; simpl; [|done].
  destruct (CreateEmbeddingResponse.data response) as [|d ds]; simpl; [done|].
  fold (index_entry file (contentWithFilePath file content) (Embedding.embedding d)).
  destruct (index_upsert indexName _ w2) as [[[]|e] w3]; simpl; done.
Qed.

Lemma index_one_throws file indexName dryrunMode w :
  processing_fails file indexName dryrunMode w = true →
  ∃ e, completed (index_one file indexName dryrunMode w) = Throw e.
Proof.
  rewrite index_one_run. unfold processing_fails.
  destruct (fs_readFile file w) as [[content|e] w1]; simpl; [|by eauto].
  destruct dryrunMode; simpl; [done|].
  fold (contentWithFilePath file content).
  destruct (embeddings_create _ w1) as [[response|e] w2]; simpl; [|by eauto].
  destruct (CreateEmbeddingResponse.data response) as [|d ds]; simpl;
    [by eauto|].
  fold (index_entry file (contentWithFilePath file content) (Embedding.embedding d)).
  destruct (index_upsert indexName _ w2) as [[[]|e] w3]; simpl; [done|by eauto].
Qed.

(** One turn of the loop. *)
Lemma for_files_cons file files indexName dryrunMode successfulCount w :
  for_files (file :: files) indexName dryrunMode successfulCount w =
  let o := index_one file indexName dryrunMode w in
  let o' := for_files files indexName dryrunMode
              (count_after successfulCount (completed o)) (world o) in
  Outcome (completed o') (world o')
    ((events o ++ catch_events file (completed o)) ++ events o').
Proof.
  destruct (processing_fails file indexName dryrunMode w) eqn:Hf.
  - destruct (index_one_throws _ _ _ _ Hf) as [e He].
    cbn [for_files]. unfold_prog. cbn beta zeta. rewrite He.
    cbn [completed world events count_after catch_events].
    by rewrite ?app_nil_r.
  - pose proof (index_one_completed file indexName dryrunMode w) as Hc.
    rewrite Hf in Hc.
    cbn [for_files]. unfold_prog. cbn beta zeta. rewrite Hc.
    cbn [completed world events count_after catch_events].
    by rewrite ?app_nil_r.
Qed.

Lemma reads_index_one file indexName dryrunMode w :
  reads (events (index_one file indexName dryrunMode w)
           ++ catch_events file
                (completed (index_one file indexName dryrunMode w)))
  = [file].
Proof.
  rewrite index_one_run.
  destruct (fs_readFile file w) as [[content|e] w1]; simpl; [|done].
  destruct dryrunMode; simpl; [done|].
  destruct (embeddings_create _ w1) as [[response|e] w2]; simpl; [|done].
  destruct (CreateEmbeddingResponse.data response) as [|d ds]; simpl; [done|].
  destruct (index_upsert indexName _ w2) as [[[]|e] w3]; simpl; done.
Qed.

(** The loop runs over all the files and ends normally, with the count of
    the files that did not fail. *)
Lemma for_files_total indexName dryrunMode files :
  ∀ successfulCount w,
    let o := for_files files indexName dryrunMode successfulCount w in
    (failed_count files indexName dryrunMode w ≤ length files)%nat ∧
    completed o
      = Normal (successfulCount + (length files
                  - failed_count files indexName dryrunMode w))%nat ∧
    reads (events o) = files.
Proof.
  induction files as [|file files IH]; intros k w o.
  - subst o. simpl. split_and!; [lia| |done].
    unfold mret, prog_ret. simpl. f_equal. lia.
  - subst o. rewrite for_files_cons. cbn [completed events].
    set (o1 := index_one file indexName dryrunMode w).
    destruct (IH (count_after k (completed o1)) (world o1))
      as (Hle & Hc & Hr).
    rewrite Hc, reads_app, Hr.
    subst o1. rewrite reads_index_one. cbn [failed_count length].
    destruct (processing_fails file indexName dryrunMode w) eqn:Hf.
    + destruct (index_one_throws _ _ _ _ Hf) as [e He]. rewrite He.
      cbn [count_after]. split_and!; [lia|f_equal; lia|done].
    + pose proof (index_one_completed file indexName dryrunMode w) as Hn.
      rewrite Hf in Hn. rewrite Hn.
      cbn [count_after]. split_and!; [lia|f_equal; lia|done].
Qed.

Lemma indexFiles_run files indexName dryrunMode w :
  let loop := for_files files indexName dryrunMode 0%nat w in
  let failed := failed_count files indexName dryrunMode w in
  indexFiles files indexName dryrunMode w =
  Outcome (Normal tt) (world loop)
    (events loop ++
     [ConsoleLog (summary dryrunMode (length files - failed)
                    (length files) indexName)]).
Proof.
  intros loop failed.
  destruct (for_files_total indexName dryrunMode files 0%nat w)
    as (_ & Hc & _).
  subst loop failed. unfold indexFiles. unfold_prog. cbn beta zeta.
  by rewrite Hc.
Qed.

(** *** Dry runs *)

Lemma dry_run_loop indexName files :
  ∀ successfulCount w,
    let o := for_files files indexName true successfulCount w in
    Forall (λ ev, is_remote_call ev = false) (events o) ∧
    world o = after_reads files w ∧
    (failed_count files indexName true w + readable_count files w
     = length files)%nat.
Proof.
  induction files as [|file files IH]; intros k w o.
  - subst o. simpl. split_and!; done.
  - subst o. rewrite for_files_cons.
    cbn [world events failed_count readable_count after_reads length].
    unfold processing_fails. rewrite index_one_run.
    destruct (fs_readFile file w) as [[content|e] w1]; simpl.
    + destruct (IH (k + 1)%nat w1) as (Hev & Hw & Hcount).
      split_and!; [by repeat constructor|done|lia].
    + destruct (IH k w1) as (Hev & Hw & Hcount).
      split_and!; [by repeat constructor|done|lia].
Qed.

Lemma dry_run_is_local files indexName w :
  let o := indexFiles files indexName true w in
  Forall (λ ev, is_remote_call ev = false) (events o) ∧
  upserts (events o) = [] ∧
  world o = after_reads files w ∧
  completed o = Normal tt ∧
  (failed_count files indexName true w + readable_count files w
   = length files)%nat ∧
  last (events o)
    = Some (ConsoleLog (summary true (readable_count files w)
                          (length files) indexName)).
Proof.
  intros o. subst o. rewrite indexFiles_run.
  destruct (dry_run_loop indexName files 0%nat w) as (Hev & Hw & Hcount).
  cbn [completed events world].
  assert (Forall (λ ev, is_remote_call ev = false)
            (events (for_files files indexName true 0%nat w)
             ++ [ConsoleLog (summary true
                   (length files - failed_count files indexName true w)
                   (length files) indexName)])) as Hall.
  { apply Forall_app. split; [done|]. by repeat constructor. }
  split_and!; [done| |done|done|done|].
  - unfold upserts. clear -Hall.
    induction Hall as [|ev tr Hev _ IH]; [done|].
    destruct ev; simpl in *; done.
  - rewrite last_snoc. do 3 f_equal. lia.
Qed.

(** *** What is embedded and upserted *)

Lemma for_files_app indexName dryrunMode xs ys :
  ∀ successfulCount w,
    let o1 := for_files xs indexName dryrunMode successfulCount w in
    ∃ n,
      completed o1 = Normal n ∧
      events (for_files (xs ++ ys) indexName dryrunMode successfulCount w)
        = events o1 ++ events (for_files ys indexName dryrunMode n (world o1)) ∧
      world (for_files (xs ++ ys) indexName dryrunMode successfulCount w)
        = world (for_files ys indexName dryrunMode n (world o1)).
Proof.
  induction xs as [|x xs IH]; intros k w o1.
  - exists k. by subst o1.
  - subst o1. rewrite <- app_comm_cons, !for_files_cons.
    cbn [completed events world].
    set (o := index_one x indexName dryrunMode w).
    destruct (IH (count_after k (completed o)) (world o)) as (n & Hc & He & Hw).
    exists n. rewrite He, Hw. split_and!; [done| |done].
    by rewrite !app_assoc.
Qed.

(** C7: outside dry-run mode, for a file of the run whose content is read,
    the driver asks for the embedding of the string made of
    ["File path: "], the path, two newlines and the content, and when the
    embedder answers it upserts one record whose id is the path, whose
    values are the first embedding of the answer, and whose metadata are
    the path and that same string. *)
Theorem indexed_document pre file post indexName w content w1 :
  fs_readFile file (world (for_files pre indexName false 0%nat w))
    = (Ok content, w1) →
  ∃ rest,
    events (indexFiles (pre ++ file :: post) indexName false w)
      = events (for_files pre indexName false 0%nat w)
          ++ ReadFile file
          :: EmbeddingsCreate
               (EmbeddingCreateParams.mk "text-embedding-3-small"
                  ("File path: " +:+ file +:+ nl +:+ nl +:+ content))
          :: rest ∧
    ∀ response w2 d ds,
      embeddings_create
        (EmbeddingCreateParams.mk "text-embedding-3-small"
           ("File path: " +:+ file +:+ nl +:+ nl +:+ content)) w1
        = (Ok response, w2) →
      CreateEmbeddingResponse.data response = d :: ds →
      ∃ rest',
        rest = Upsert indexName
                 [PineconeRecord.mk file (Embedding.embedding d)
                    (RecordMetadata.mk file
                       ("File path: " +:+ file +:+ nl +:+ nl +:+ content))]
               :: rest'.
Proof.
  intros Hread. rewrite indexFiles_run. cbn [events].
  destruct (for_files_app indexName false pre (file :: post) 0%nat w)
    as (n & _ & -> & _).
  rewrite for_files_cons. cbn [events]. rewrite index_one_run, Hread.
  cbn zeta iota. unfold contentWithFilePath, embedding_model, index_entry.
  destruct (embeddings_create _ w1) as [[response|e] w2] eqn:He.
  - destruct (CreateEmbeddingResponse.data response) as [|d ds] eqn:Hd.
    + eexists. split.
      { cbn [events]. rewrite <- !app_assoc. simpl. reflexivity. }
      intros ? ? ? ? [= <- <-] Hd'. congruence.
    + destruct (index_upsert indexName _ w2) as [[[]|e] w3].
      * eexists. split.
        { cbn [events]. rewrite <- !app_assoc. simpl. reflexivity. }
        intros ? ? ? ? [= <- <-] Hd'. rewrite Hd in Hd'.
        injection Hd' as <- <-. eexists. reflexivity.
      * eexists. split.
        { cbn [events]. rewrite <- !app_assoc. simpl. reflexivity. }
        intros ? ? ? ? [= <- <-] Hd'. rewrite Hd in Hd'.
        injection Hd' as <- <-. eexists. reflexivity.
  - eexists. split.
    { cbn [events]. rewrite <- !app_assoc. simpl. reflexivity. }
    intros ? ? ? ? [=].
Qed.

End Driver.

(** ** An index as a list of records *)

Lemma fetch_upsert_eq r store :
  fetch (PineconeRecord.id r) (upsert_record r store) = Some r.
Proof.
  induction store as [|x store IH]; simpl.
  - case_bool_decide; congruence.
  - case_bool_decide as Hx; simpl; case_bool_decide as Hr; congruence.
Qed.

Lemma fetch_upsert_ne k r store :
  k ≠ PineconeRecord.id r → fetch k (upsert_record r store) = fetch k store.
Proof.
  intros Hk. induction store as [|x store IH]; simpl.
  - case_bool_decide; congruence.
  - case_bool_decide as Hx; simpl.
    + case_bool_decide as H1; case_bool_decide as H2; congruence.
    + by rewrite IH.
Qed.

Lemma upsert_fixed r store :
  fetch (PineconeRecord.id r) store = Some r → upsert_record r store = store.
Proof.
  induction store as [|x store IH]; simpl; [done|].
  case_bool_decide as Hx; [by intros [= ->]|].
  intros H. by rewrite IH.
Qed.

Lemma ids_upsert r store :
  ids (upsert_record r store) =
  if bool_decide (PineconeRecord.id r ∈ ids store) then ids store
  else ids store ++ [PineconeRecord.id r].
Proof.
  induction store as [|x store IH].
  - rewrite bool_decide_eq_false_2; [done|]. apply not_elem_of_nil.
  - cbn [upsert_record].
    change (ids (x :: store)) with (PineconeRecord.id x :: ids store).
    destruct (decide (PineconeRecord.id x = PineconeRecord.id r)) as [Hx|Hx].
    + clear IH. rewrite (bool_decide_eq_true_2 _ Hx).
      rewrite bool_decide_eq_true_2 by (rewrite Hx; left).
      unfold ids. simpl. by rewrite Hx.
    + rewrite (bool_decide_eq_false_2 _ Hx).
      change (ids (x :: upsert_record r store))
        with (PineconeRecord.id x :: ids (upsert_record r store)).
      rewrite IH. clear IH.
      destruct (decide (PineconeRecord.id r ∈ ids store)) as [Hin|Hin].
      * rewrite (bool_decide_eq_true_2 _ Hin).
        rewrite bool_decide_eq_true_2 by by right. done.
      * rewrite (bool_decide_eq_false_2 _ Hin).
        rewrite bool_decide_eq_false_2; [done|].
        intros [?|?]%elem_of_cons; congruence.
Qed.

Lemma NoDup_upsert r store :
  NoDup (ids store) → NoDup (ids (upsert_record r store)).
Proof.
  intros Hnd. rewrite ids_upsert. case_bool_decide as Hin; [done|].
  apply NoDup_app. split_and!; [done| |apply NoDup_singleton].
  intros k Hk ->%list_elem_of_singleton. done.
Qed.

Lemma fetch_None k store : k ∉ ids store → fetch k store = None.
Proof.
  induction store as [|x store IH]; simpl; [done|].
  intros Hk. apply not_elem_of_cons in Hk as [Hx Hk].
  case_bool_decide; [congruence|]. by apply IH.
Qed.

Lemma filter_absent k store :
  k ∉ ids store → filter (λ x, PineconeRecord.id x = k) store = [].
Proof.
  induction store as [|x store IH]; simpl; [done|].
  intros Hk. apply not_elem_of_cons in Hk as [Hx Hk].
  rewrite filter_cons_False by congruence. by apply IH.
Qed.

(** In an index without two records of the same id, the record fetched for
    an id is the only record of that id. *)
Lemma filter_fetch k r store :
  NoDup (ids store) → fetch k store = Some r →
  filter (λ x, PineconeRecord.id x = k) store = [r].
Proof.
  induction store as [|x store IH]; simpl; [done|].
  intros Hnd Hf. apply NoDup_cons in Hnd as [Hx Hnd].
  case_bool_decide as Hk.
  - injection Hf as ->. rewrite filter_cons_True by done.
    f_equal. apply filter_absent. by rewrite <- Hk.
  - rewrite filter_cons_False by done. by apply IH.
Qed.

(** ** Runs in the deterministic world *)

Section Deterministic.
Variable content : string → result string.
Variable embed : EmbeddingCreateParams.t → result CreateEmbeddingResponse.t.
Variable accepts : list PineconeRecord.t → bool.

Local Abbreviation fs := (det_fs content).
Local Abbreviation openai := (det_openai embed).
Local Abbreviation index := (det_index accepts).
Local Abbreviation step := (store_step content embed accepts).
Local Abbreviation accepted file :=
  (match attempted content embed file with
   | Some r => accepts [r]
   | None => false
   end).

Lemma attempted_id file r :
  attempted content embed file = Some r → PineconeRecord.id r = file.
Proof.
  unfold attempted. destruct (content file) as [c|]; [|done].
  destruct (embed _) as [response|]; [|done].
  destruct (CreateEmbeddingResponse.data response); [done|].
  by intros [= <-].
Qed.

Lemma det_index_one file indexName store :
  let o := @index_one _ fs openai index file indexName false store in
  world o = step store file ∧
  upserts (events o ++ catch_events file (completed o))
    = from_option (λ r, [[r]]) [] (attempted content embed file) ∧
  @processing_fails _ fs openai index file indexName false store
    = negb (accepted file).
Proof.
  intros o. subst o. rewrite index_one_run.
  unfold store_step, attempted, processing_fails. simpl.
  fold (contentWithFilePath file).
  destruct (content file) as [c|e]; simpl; [|done].
  destruct (embed _) as [response|e]; simpl; [|done].
  destruct (CreateEmbeddingResponse.data response) as [|d ds]; simpl; [done|].
  fold (index_entry file (contentWithFilePath file c) (Embedding.embedding d)).
  destruct (accepts _); simpl; done.
Qed.

Lemma det_for_files indexName files :
  ∀ successfulCount store,
    let o := @for_files _ fs openai index files indexName false
               successfulCount store in
    world o = foldl step store files ∧
    upserts (events o)
      = omap (λ file, (λ r, [r]) <$> attempted content embed file) files.
Proof.
  induction files as [|file files IH]; intros k store o; [done|].
  subst o. rewrite for_files_cons. cbn [world events].
  destruct (det_index_one file indexName store) as (Hw & Hu & _).
  rewrite upserts_app, Hu, Hw.
  destruct (IH (count_after k
                  (completed (@index_one _ fs openai index file indexName
                                false store)))
               (step store file)) as (Hw' & Hu').
  rewrite Hw', Hu'. split; [done|].
  simpl. by destruct (attempted content embed file).
Qed.

Lemma det_run files indexName store :
  let o := @indexFiles _ fs openai index files indexName false store in
  world o = foldl step store files ∧
  upserts (events o)
    = omap (λ file, (λ r, [r]) <$> attempted content embed file) files.
Proof.
  intros o. subst o. rewrite indexFiles_run. cbn [world events].
  destruct (det_for_files indexName files 0%nat store) as (Hw & Hu).
  rewrite upserts_app, Hu, Hw. split; [done|]. apply app_nil_r.
Qed.

Lemma fetch_preserved file r files :
  attempted content embed file = Some r →
  ∀ store, fetch file store = Some r →
           fetch file (foldl step store files) = Some r.
Proof.
  intros Hr. induction files as [|x files IH]; intros store Hf; [done|].
  simpl. apply IH. unfold store_step.
  destruct (attempted content embed x) as [r'|] eqn:Hx; [|done].
  destruct (accepts [r']); [|done].
  destruct (decide (x = file)) as [->|Hne].
  - rewrite Hr in Hx. injection Hx as <-.
    rewrite <- (attempted_id file r Hr) at 1. apply fetch_upsert_eq.
  - rewrite fetch_upsert_ne; [done|].
    rewrite (attempted_id x r' Hx). done.
Qed.

Lemma fetch_run file r files :
  file ∈ files →
  attempted content embed file = Some r → accepts [r] = true →
  ∀ store, fetch file (foldl step store files) = Some r.
Proof.
  intros Hin Hr Hacc. induction files as [|x files IH]; intros store.
  - by apply elem_of_nil in Hin.
  - simpl. destruct (decide (x = file)) as [->|Hne].
    + apply fetch_preserved; [done|].
      unfold store_step. rewrite Hr, Hacc.
      rewrite <- (attempted_id file r Hr) at 1. apply fetch_upsert_eq.
    + apply IH. apply elem_of_cons in Hin as [?|?]; [congruence|done].
Qed.

Lemma run_fixed files :
  ∀ store,
    (∀ file r, file ∈ files → attempted content embed file = Some r →
               accepts [r] = true → fetch file store = Some r) →
    foldl step store files = store.
Proof.
  induction files as [|x files IH]; intros store Hfix; [done|].
  simpl. assert (step store x = store) as ->.
  { unfold store_step.
    destruct (attempted content embed x) as [r|] eqn:Hx; [|done].
    destruct (accepts [r]) eqn:Hacc; [|done].
    apply upsert_fixed. rewrite (attempted_id x r Hx).
    apply Hfix; [left|done..]. }
  apply IH. intros file r Hin. apply Hfix. by right.
Qed.

Lemma NoDup_run files :
  ∀ store, NoDup (ids store) → NoDup (ids (foldl step store files)).
Proof.
  induction files as [|x files IH]; intros store Hnd; [done|].
  simpl. apply IH. unfold store_step.
  destruct (attempted content embed x) as [r|]; [|done].
  destruct (accepts [r]); [|done]. by apply NoDup_upsert.
Qed.

(** C9: with an unchanged file set, a deterministic embedder and a store
    that holds no two records of one id, a second run outside dry-run mode
    leaves the index as the first run left it, asks for the same upserts,
    and leaves, for each file that does not fail, exactly one record whose
    id is the path of the file: the one that the first run upserted. *)
Theorem second_run_changes_nothing files indexName store :
  let first := @indexFiles _ fs openai index files indexName false store in
  let second :=
    @indexFiles _ fs openai index files indexName false (world first) in
  NoDup (ids store) →
  world second = world first ∧
  upserts (events second) = upserts (events first) ∧
  NoDup (ids (world second)) ∧
  ∀ file,
    file ∈ files →
    @processing_fails _ fs openai index file indexName false store = false →
    ∃ r,
      PineconeRecord.id r = file ∧
      [r] ∈ upserts (events first) ∧
      filter (λ x, PineconeRecord.id x = file) (world second) = [r].
Proof.
  intros first second Hnd. subst first second.
  destruct (det_run files indexName store) as (Hw1 & Hu1).
  destruct (det_run files indexName (foldl step store files)) as (Hw2 & Hu2).
  rewrite Hw1, Hu1 in *. rewrite Hw2, Hu2.
  assert (foldl step (foldl step store files) files = foldl step store files)
    as Hfix.
  { apply run_fixed. intros file r Hin Hr Hacc. by apply fetch_run. }
  rewrite Hfix. split_and!; [done|done|by apply NoDup_run|].
  intros file Hin Hok.
  destruct (det_index_one file indexName store) as (_ & _ & Hfails).
  rewrite Hfails in Hok. apply negb_false_iff in Hok.
  destruct (attempted content embed file) as [r|] eqn:Hr; [|done].
  exists r. split_and!.
  - by apply (attempted_id file).
  - apply list_elem_of_omap. exists file. split; [done|]. by rewrite Hr.
  - apply filter_fetch; [by apply NoDup_run|]. by apply fetch_run.
Qed.

End Deterministic.

(** ** Runs on the small worlds *)

Example real_run :
  let o := @indexFiles _ (det_fs one_file) (det_openai constant_embedder)
             (det_index (λ _, true)) ["/repo/f1"; "/repo/f2"] "idx" false [] in
  events o =
    [ ReadFile "/repo/f1";
      EmbeddingsCreate
        (EmbeddingCreateParams.mk "text-embedding-3-small"
           ("File path: /repo/f1" +:+ nl +:+ nl +:+ "hello"));
      Upsert "idx"
        [PineconeRecord.mk "/repo/f1" unit_vector
           (RecordMetadata.mk "/repo/f1"
              ("File path: /repo/f1" +:+ nl +:+ nl +:+ "hello"))];
      ConsoleLog "Indexed file: /repo/f1";
      ReadFile "/repo/f2";
      ConsoleError "Error indexing file /repo/f2:"
        (Error "ENOENT: no such file or directory");
      ConsoleLog
        "Successfully indexed 1 out of 2 files in Pinecone under index 'idx'" ] ∧
  ids (world o) = ["/repo/f1"].
Proof. vm_compute. split; reflexivity. Qed.

Lemma dry_run_scenario :
  let o := @indexFiles _ (det_fs one_file) (det_openai constant_embedder)
             (det_index (λ _, true)) ["/repo/f1"; "/repo/f2"] "idx" true [] in
  completed o = Normal tt ∧
  upserts (events o) = [] ∧
  world o = [] ∧
  events o =
    [ ReadFile "/repo/f1";
      ConsoleLog "[Dry Run] Indexed file: /repo/f1";
      ReadFile "/repo/f2";
      ConsoleError "Error indexing file /repo/f2:"
        (Error "ENOENT: no such file or directory");
      ConsoleLog
        "Successfully simulated indexing 1 out of 2 files in Pinecone under index 'idx' (dry run)" ].
Proof. vm_compute. split_and!; reflexivity. Qed.

(** C3: in dry-run mode a run makes no call on the embedder nor on the
    store, for any list of files: its only calls are the reads, the world is
    the one that the reads leave, the files whose read fails are the failed
    ones, and the summary counts the files whose read succeeds.  With [f1]
    readable and [f2] missing, the summary reports 1 out of 2 and no upsert
    is made. *)
Theorem dry_run_has_no_remote_effect :
  (∀ (W : Type) (fs : FileSystem W) (openai : OpenAI W)
     (index : PineconeIndex W) files indexName (w : W),
     let o := indexFiles files indexName true w in
     Forall (λ ev, is_remote_call ev = false) (events o) ∧
     upserts (events o) = [] ∧
     world o = after_reads files w ∧
     completed o = Normal tt ∧
     (failed_count files indexName true w + readable_count files w
      = length files)%nat ∧
     last (events o)
       = Some (ConsoleLog (summary true (readable_count files w)
                             (length files) indexName))) ∧
  (let o := @indexFiles _ (det_fs one_file) (det_openai constant_embedder)
              (det_index (λ _, true)) ["/repo/f1"; "/repo/f2"] "idx" true [] in
   completed o = Normal tt ∧
   upserts (events o) = [] ∧
   world o = [] ∧
   last (events o)
     = Some (ConsoleLog
         "Successfully simulated indexing 1 out of 2 files in Pinecone under index 'idx' (dry run)")).
Proof.
  split.
  - intros W fs openai index files indexName w. apply dry_run_is_local.
  - destruct dry_run_scenario as (Hc & Hu & Hw & He).
    cbv zeta. rewrite He. split_and!; done.
Qed.

Lemma indexed_document_witness :
  ∃ rest,
    events (@indexFiles _ (det_fs one_file) (det_openai constant_embedder)
              (det_index (λ _, true)) (["/repo/f2"] ++ "/repo/f1" :: [])
              "idx" false [])
    = events (@for_files _ (det_fs one_file) (det_openai constant_embedder)
                (det_index (λ _, true)) ["/repo/f2"] "idx" false 0%nat [])
        ++ ReadFile "/repo/f1"
        :: EmbeddingsCreate
             (EmbeddingCreateParams.mk "text-embedding-3-small"
                ("File path: " +:+ "/repo/f1" +:+ nl +:+ nl +:+ "hello"))
        :: rest ∧
    ∀ response w2 d ds,
      @embeddings_create _ (det_openai constant_embedder)
        (EmbeddingCreateParams.mk "text-embedding-3-small"
           ("File path: " +:+ "/repo/f1" +:+ nl +:+ nl +:+ "hello")) []
        = (Ok response, w2) →
      CreateEmbeddingResponse.data response = d :: ds →
      ∃ rest',
        rest = Upsert "idx"
                 [PineconeRecord.mk "/repo/f1" (Embedding.embedding d)
                    (RecordMetadata.mk "/repo/f1"
                       ("File path: " +:+ "/repo/f1" +:+ nl +:+ nl +:+ "hello"))]
               :: rest'.
Proof.
  apply (@indexed_document _ (det_fs one_file) (det_openai constant_embedder)
           (det_index (λ _, true)) ["/repo/f2"] "/repo/f1" [] "idx" []
           "hello" []).
  reflexivity.
Defined.

Lemma second_run_changes_nothing_witness :
  let run := @indexFiles _ (det_fs one_file) (det_openai constant_embedder)
               (det_index (λ _, true))
               ["/repo/f1"; "/repo/f2"; "/repo/f1"] "idx" false in
  NoDup (ids []) ∧
  world (run (world (run []))) = world (run []) ∧
  upserts (events (run (world (run [])))) = upserts (events (run [])) ∧
  NoDup (ids (world (run (world (run []))))).
Proof.
  intros run. split; [apply NoDup_nil_2|].
  destruct (second_run_changes_nothing one_file constant_embedder (λ _, true)
              ["/repo/f1"; "/repo/f2"; "/repo/f1"] "idx" [] (NoDup_nil_2))
    as (Hw & Hu & Hnd & _).
  split_and!; assumption.
Defined.

(** * Further properties *)

(** ** Extensions *)

Lemma chars_app s t :
  String.list_ascii_of_string (s +:+ t)
  = String.list_ascii_of_string s ++ String.list_ascii_of_string t.
Proof. induction s as [|c s IH]; [done|]. rewrite append_cons. simpl. by rewrite IH. Qed.

Lemma chars_length s :
  length (String.list_ascii_of_string s) = String.length s.
Proof. induction s as [|c s IH]; [done|]. simpl. by rewrite IH. Qed.

Lemma string_length_app s t :
  String.length (s +:+ t) = (String.length s + String.length t)%nat.
Proof. induction s as [|c s IH]; [done|]. rewrite append_cons. simpl. by rewrite IH. Qed.

Lemma substring_all s : String.substring 0 (String.length s) s = s.
Proof. induction s as [|c s IH]; [done|]. simpl. by rewrite IH. Qed.

Lemma substring_skip b t n :
  String.substring (String.length b) n (b +:+ t) = String.substring 0 n t.
Proof. induction b as [|c b IH]; [done|]. rewrite append_cons. simpl. exact IH. Qed.

Lemma sepfree_chars s :
  sepfree s = true →
  Forall (λ c, Ascii.eqb c path.CHAR_FORWARD_SLASH = false)
         (String.list_ascii_of_string s).
Proof.
  induction s as [|c s IH]; simpl; [constructor|].
  intros [Hc Hs]%andb_prop. constructor; [|by apply IH].
  by apply negb_true_iff.
Qed.

Lemma dotfree_chars s :
  dotfree s = true →
  Forall (λ c, Ascii.eqb c path.CHAR_DOT = false)
         (String.list_ascii_of_string s).
Proof.
  induction s as [|c s IH]; simpl; [constructor|].
  intros [Hc Hs]%andb_prop. constructor; [|by apply IH].
  by apply negb_true_iff.
Qed.

(** No dot, no extension. *)
Lemma scan_step_no_dot i c st :
  Ascii.eqb c path.CHAR_DOT = false →
  path.startDot st = -1 →
  path.startDot (fst (path.scan_step i c st)) = -1.
Proof.
  intros Hc Hst. unfold path.scan_step.
  destruct (Ascii.eqb c path.CHAR_FORWARD_SLASH).
  - by destruct (negb (path.matchedSlash st)).
  - rewrite Hc. destruct (path.end_ st =? -1); simpl; rewrite Hst; done.
Qed.

Lemma scan_loop_no_dot rcs :
  Forall (λ c, Ascii.eqb c path.CHAR_DOT = false) rcs →
  ∀ i st, path.startDot st = -1 → path.startDot (path.scan_loop rcs i st) = -1.
Proof.
  induction 1 as [|c rcs Hc _ IH]; intros i st Hst; [done|].
  simpl. pose proof (scan_step_no_dot i c st Hc Hst) as Hstep.
  destruct (path.scan_step i c st) as [st' stop]. simpl in Hstep.
  destruct stop; [done|]. by apply IH.
Qed.

Lemma extname_no_dot name : dotfree name = true → path.extname name = "".
Proof.
  intros Hname. unfold path.extname.
  rewrite scan_loop_no_dot; [done| |done].
  apply Forall_rev. by apply dotfree_chars.
Qed.

(** Without a separator the loop does not break. *)
Lemma scan_step_no_sep i c st :
  Ascii.eqb c path.CHAR_FORWARD_SLASH = false →
  snd (path.scan_step i c st) = false.
Proof. intros Hc. unfold path.scan_step. by rewrite Hc. Qed.

Lemma scan_loop_app xs ys :
  Forall (λ c, Ascii.eqb c path.CHAR_FORWARD_SLASH = false) xs →
  ∀ i st,
    path.scan_loop (xs ++ ys) i st
    = path.scan_loop ys (i - Z.of_nat (length xs)) (path.scan_loop xs i st).
Proof.
  induction 1 as [|c xs Hc _ IH]; intros i st.
  - simpl. f_equal. lia.
  - simpl. pose proof (scan_step_no_sep i c st Hc) as Hstop.
    destruct (path.scan_step i c st) as [st' stop]. simpl in Hstop. subst stop.
    rewrite IH. f_equal. lia.
Qed.

(** Plain characters before any dot has been seen. *)
Lemma scan_loop_plain rcs :
  Forall (λ c, Ascii.eqb c path.CHAR_FORWARD_SLASH = false) rcs →
  Forall (λ c, Ascii.eqb c path.CHAR_DOT = false) rcs →
  ∀ i st,
    path.startDot st = -1 → path.end_ st ≠ -1 →
    path.scan_loop rcs i st = st.
Proof.
  induction 1 as [|c rcs Hc _ IH]; intros Hdots i st Hsd Hend; [done|].
  apply Forall_cons in Hdots as [Hd Hdots].
  simpl. unfold path.scan_step. rewrite Hc, Hd.
  apply Z.eqb_neq in Hend as Hend'. rewrite Hend'. simpl.
  rewrite Hsd. simpl. by apply IH.
Qed.

Lemma scan_loop_plain_start rcs i :
  Forall (λ c, Ascii.eqb c path.CHAR_FORWARD_SLASH = false) rcs →
  Forall (λ c, Ascii.eqb c path.CHAR_DOT = false) rcs →
  0 ≤ i →
  path.scan_loop rcs i path.scan0 =
  match rcs with
  | [] => path.scan0
  | _ => path.Scan (-1) 0 (i + 1) false 0
  end.
Proof.
  intros Hs Hd Hi. destruct rcs as [|c rcs]; [done|].
  apply Forall_cons in Hs as [Hc Hs]. apply Forall_cons in Hd as [Hcd Hd].
  simpl. unfold path.scan_step. rewrite Hc, Hcd. simpl.
  apply scan_loop_plain; [done|done|done|]. simpl. lia.
Qed.

(** Characters before the dot that starts the extension. *)
Lemma scan_loop_stem rcs :
  Forall (λ c, Ascii.eqb c path.CHAR_FORWARD_SLASH = false) rcs →
  ∀ i st,
    path.startDot st ≠ -1 → path.end_ st ≠ -1 →
    path.scan_loop rcs i st =
    path.Scan (path.startDot st) (path.startPart st) (path.end_ st)
      (path.matchedSlash st)
      (match last rcs with
       | None => path.preDotState st
       | Some c => if Ascii.eqb c path.CHAR_DOT then 1 else -1
       end).
Proof.
  induction 1 as [|c rcs Hc _ IH]; intros i st Hsd Hend.
  - by destruct st.
  - cbn [path.scan_loop]. unfold path.scan_step. rewrite Hc.
    apply Z.eqb_neq in Hend as Hend'. apply Z.eqb_neq in Hsd as Hsd'.
    rewrite Hend'. cbn zeta. rewrite Hsd'. simpl negb.
    set (st' := if Ascii.eqb c path.CHAR_DOT then _ else _).
    assert (path.startDot st' = path.startDot st ∧
            path.startPart st' = path.startPart st ∧
            path.end_ st' = path.end_ st ∧
            path.matchedSlash st' = path.matchedSlash st ∧
            path.preDotState st' = if Ascii.eqb c path.CHAR_DOT then 1 else -1)
      as (H1 & H2 & H3 & H4 & H5).
    { subst st'. destruct (Ascii.eqb c path.CHAR_DOT).
      - destruct (path.preDotState st =? 1) eqn:Hp; simpl; [|done].
        apply Z.eqb_eq in Hp. by rewrite Hp.
      - done. }
    rewrite IH by congruence. rewrite H1, H2, H3, H4, H5.
    destruct rcs as [|c' rcs]; [done|].
    change (last (c :: c' :: rcs)) with (last (c' :: rcs)).
    destruct (last (c' :: rcs)) eqn:Hl; [done|].
    by apply last_None in Hl.
Qed.

Lemma last_rev_chars s :
  last (rev (String.list_ascii_of_string s))
  = match s with EmptyString => None | String c _ => Some c end.
Proof. destruct s as [|c s]; [done|]. simpl. by rewrite last_snoc. Qed.

(** The scan of a name without separator, from its last dot on. *)
Lemma scan_split stem ext :
  sepfree stem = true → sepfree ext = true → dotfree ext = true →
  path.scan_loop
    (rev (String.list_ascii_of_string (stem +:+ "." +:+ ext)))
    (Z.of_nat (String.length (stem +:+ "." +:+ ext)) - 1) path.scan0
  = path.Scan (Z.of_nat (String.length stem)) 0
      (Z.of_nat (String.length (stem +:+ "." +:+ ext))) false
      (match stem with
       | EmptyString => 0
       | String c _ => if Ascii.eqb c path.CHAR_DOT then 1 else -1
       end).
Proof.
  intros Hstem Hext Hdot.
  apply sepfree_chars in Hstem as Hs. apply sepfree_chars in Hext as He.
  apply dotfree_chars in Hdot as Hd.
  rewrite !chars_app, !string_length_app.
  change (String.list_ascii_of_string ".") with ["."%char].
  change (String.length ".") with 1%nat.
  rewrite !rev_app_distr. simpl rev. rewrite <- app_assoc.
  rewrite scan_loop_app by by apply Forall_rev.
  rewrite scan_loop_plain_start; [|by apply Forall_rev|by apply Forall_rev|lia].
  rewrite length_rev, chars_length.
  set (n := String.length stem). set (m := String.length ext).
  assert (m = 0%nat ↔ rev (String.list_ascii_of_string ext) = []) as Hm.
  { subst m. rewrite <- chars_length,
      <- (length_rev (String.list_ascii_of_string ext)).
    split; [apply nil_length_inv|by intros ->]. }
  cbn [app path.scan_loop]. unfold path.scan_step.
  change (Ascii.eqb "." path.CHAR_FORWARD_SLASH) with false.
  change (Ascii.eqb "." path.CHAR_DOT) with true. cbv iota.
  destruct (rev (String.list_ascii_of_string ext)) as [|c cs] eqn:Hrev.
  - assert (m = 0%nat) as -> by by apply Hm.
    simpl. rewrite scan_loop_stem; [|by apply Forall_rev|simpl; lia..].
    simpl. rewrite last_rev_chars.
    clearbody n. destruct stem; f_equal; lia.
  - assert ((Z.of_nat (n + (1 + m)) - 1 + 1 =? -1) = false) as Hne
      by (apply Z.eqb_neq; lia).
    cbn [path.end_ path.startDot path.startPart path.matchedSlash
         path.preDotState]. rewrite Hne.
    cbn [path.end_ path.startDot path.startPart path.matchedSlash
         path.preDotState]. change (-1 =? -1) with true. cbv iota.
    rewrite scan_loop_stem; [|by apply Forall_rev|simpl; lia..].
    simpl. rewrite last_rev_chars.
    clearbody n m. destruct stem; f_equal; lia.
Qed.

Lemma slice_split stem ext :
  path.slice (stem +:+ "." +:+ ext) (Z.of_nat (String.length stem))
    (Z.of_nat (String.length (stem +:+ "." +:+ ext)))
  = "." +:+ ext.
Proof.
  unfold path.slice. rewrite Nat2Z.id, substring_skip.
  rewrite string_length_app.
  replace (Z.to_nat _) with (String.length ("." +:+ ext)) by lia.
  apply substring_all.
Qed.

(** The extension of a name without separator: what follows its last dot,
    unless nothing comes before that dot or the name is [..]. *)
Lemma extname_split stem ext :
  sepfree stem = true → sepfree ext = true → dotfree ext = true →
  path.extname (stem +:+ "." +:+ ext) =
  if bool_decide (stem = "" ∨ (stem = "." ∧ ext = "")) then ""
  else "." +:+ ext.
Proof.
  intros Hstem Hext Hdot. unfold path.extname.
  rewrite (scan_split stem ext Hstem Hext Hdot), slice_split.
  cbn [path.startDot path.end_ path.preDotState path.startPart].
  rewrite !string_length_app.
  replace (Z.of_nat (String.length stem) =? -1) with false
    by (symmetry; apply Z.eqb_neq; lia).
  replace (Z.of_nat _ =? -1) with false by (symmetry; apply Z.eqb_neq; lia).
  cbn [orb].
  destruct stem as [|c stem].
  - by rewrite bool_decide_eq_true_2 by by left.
  - destruct (Ascii.eqb c path.CHAR_DOT) eqn:Hc.
    + apply Ascii.eqb_eq in Hc as ->.
      change (1 =? 0) with false. change (1 =? 1) with true. cbn [orb andb].
      destruct (decide (stem = "" ∧ ext = "")) as [[-> ->]|Hne].
      * by rewrite bool_decide_eq_true_2 by by right.
      * rewrite bool_decide_eq_false_2.
        2:{ intros [[=]|[[= ->] ->]]. by apply Hne. }
        replace (_ && _) with false; [done|]. symmetry.
        apply andb_false_iff.
        destruct stem as [|c' stem].
        -- left. apply Z.eqb_neq. destruct ext; [by destruct Hne|].
           simpl String.length. lia.
        -- right. apply Z.eqb_neq. simpl String.length. lia.
    + change (-1 =? 0) with false. change (-1 =? 1) with false. cbn [orb andb].
      rewrite bool_decide_eq_false_2; [done|].
      intros [[=]|[[= -> ->] _]]. done.
Qed.


Lemma last_dot_split s :
  sepfree s = true →
  dotfree s = true ∨
  ∃ stem ext, s = stem +:+ "." +:+ ext ∧ sepfree stem = true ∧
              sepfree ext = true ∧ dotfree ext = true.
Proof.
  induction s as [|c s IH]; intros Hs; [by left|].
  simpl in Hs. apply andb_prop in Hs as [Hc Hs].
  destruct (IH Hs) as [Hd|(stem & ext & -> & Hstem & Hext & Hdot)].
  - destruct (Ascii.eqb c path.CHAR_DOT) eqn:Hdotc.
    + right. apply Ascii.eqb_eq in Hdotc as ->. by exists "", s.
    + left. simpl. by rewrite Hdotc.
  - right. exists (String c stem), ext. split_and!; [done| |done|done].
    simpl. by rewrite Hc.
Qed.

(** X5: a file whose name has no dot ([Dockerfile], [Makefile]) is never
    selected. *)
Theorem names_without_dot_are_skipped dir name :
  dotfree name = true → visit dir (File name) = Ok [].
Proof.
  intros Hname. rewrite visit_File, extname_no_dot by done.
  replace (has allowedExtensions "") with false by (vm_compute; reflexivity).
  done.
Qed.

(** X6: a file whose name is a dot followed by a name without dot
    ([.gitignore], [.env], [.dockerignore]) is never selected. *)
Theorem dotfiles_are_skipped dir rest :
  sepfree rest = true → dotfree rest = true →
  visit dir (File ("." +:+ rest)) = Ok [].
Proof.
  intros Hsep Hdot. rewrite visit_File.
  pose proof (extname_split "" rest eq_refl Hsep Hdot) as He.
  change ("" +:+ "." +:+ rest) with ("." +:+ rest) in He.
  rewrite bool_decide_eq_true_2 in He by by left. rewrite He.
  replace (has allowedExtensions "") with false by (vm_compute; reflexivity).
  done.
Qed.

(** X7: for a name with something before its last dot, the file is
    selected exactly when what starts at that last dot is in the allow-set;
    what comes before plays no part. *)
Theorem last_dot_decides dir stem ext :
  stem ≠ "" → sepfree stem = true → sepfree ext = true → dotfree ext = true →
  visit dir (File (stem +:+ "." +:+ ext)) =
  if has allowedExtensions ("." +:+ ext)
  then Ok [path.resolve dir (stem +:+ "." +:+ ext)]
  else Ok [].
Proof.
  intros Hne Hstem Hext Hdot. rewrite visit_File, extname_split by done.
  case_bool_decide as Hcase; [|done].
  destruct Hcase as [->|[-> ->]]; [done|].
  replace (has allowedExtensions "") with false by (vm_compute; reflexivity).
  replace (has allowedExtensions ("." +:+ "")) with false
    by (vm_compute; reflexivity).
  done.
Qed.

(** X8: the entry [.pkr.hcl] of the allow-set matches no file name, since
    [path.extname] starts at the last dot; a file [x.pkr.hcl] has the
    extension [.hcl] and is selected through that entry. *)
Theorem packer_entry_is_never_matched :
  ".pkr.hcl" ∈ allowedExtensions ∧
  (∀ name, sepfree name = true → path.extname name ≠ ".pkr.hcl") ∧
  (∀ dir stem,
     sepfree stem = true →
     path.extname (stem +:+ ".pkr.hcl") = ".hcl" ∧
     visit dir (File (stem +:+ ".pkr.hcl"))
       = Ok [path.resolve dir (stem +:+ ".pkr.hcl")]).
Proof.
  split_and!.
  - apply has_true. vm_compute. reflexivity.
  - intros name Hname.
    destruct (last_dot_split name Hname)
      as [Hd|(stem & ext & -> & Hstem & Hext & Hdot)].
    + by rewrite extname_no_dot.
    + rewrite extname_split by done. case_bool_decide; [done|].
      intros Heq. change ("." +:+ ext) with (String "." ext) in Heq.
      injection Heq as ->. discriminate Hdot.
  - intros dir stem Hstem.
    assert (stem +:+ ".pkr.hcl" = (stem +:+ ".pkr") +:+ "." +:+ "hcl") as Heq
      by by rewrite append_assoc.
    assert (sepfree (stem +:+ ".pkr") = true) as Hsep.
    { clear Heq. induction stem as [|c stem IH]; [done|].
      simpl in *. apply andb_prop in Hstem as [Hc Hstem].
      rewrite Hc. by apply IH. }
    assert (stem +:+ ".pkr" ≠ "") as Hne by by destruct stem.
    assert (path.extname (stem +:+ ".pkr.hcl") = ".hcl") as Hext.
    { rewrite Heq, extname_split by done.
      rewrite bool_decide_eq_false_2; [done|].
      intros [?|[_ [=]]]. done. }
    split; [done|].
    rewrite visit_File, Hext.
    replace (has allowedExtensions ".hcl") with true by (vm_compute; reflexivity).
    done.
Qed.

(** ** The selection as a whole *)

Lemma promise_all_app {A} (ps qs : list (result A)) :
  promise_all (ps ++ qs) =
  match promise_all ps, promise_all qs with
  | Ok xs, Ok ys => Ok (xs ++ ys)
  | Err e, _ => Err e
  | Ok _, Err e => Err e
  end.
Proof.
  induction ps as [|[a|e] ps IH]; simpl.
  - by destruct (promise_all qs).
  - rewrite IH. destruct (promise_all ps), (promise_all qs); done.
  - done.
Qed.

(** X3: when the selections for two parts of a listing both resolve, the
    selection for the whole listing is the first followed by the second, in
    the order of the entries; and the whole resolves only when both parts
    do. *)
Theorem selection_follows_listing_order dir entries1 entries2 :
  (∀ out1 out2,
     readFilesRecursively dir (Ok entries1) = Ok out1 →
     readFilesRecursively dir (Ok entries2) = Ok out2 →
     readFilesRecursively dir (Ok (entries1 ++ entries2)) = Ok (out1 ++ out2)) ∧
  (∀ out,
     readFilesRecursively dir (Ok (entries1 ++ entries2)) = Ok out →
     ∃ out1 out2,
       readFilesRecursively dir (Ok entries1) = Ok out1 ∧
       readFilesRecursively dir (Ok entries2) = Ok out2 ∧
       out = out1 ++ out2).
Proof.
  assert (readFilesRecursively dir (Ok (entries1 ++ entries2)) =
          match readFilesRecursively dir (Ok entries1),
                readFilesRecursively dir (Ok entries2) with
          | Ok out1, Ok out2 => Ok (out1 ++ out2)
          | Err e, _ => Err e
          | Ok _, Err e => Err e
          end) as Happ.
  { unfold readFilesRecursively. rewrite map_app, promise_all_app.
    destruct (promise_all (map (visit dir) entries1)) as [o1|e1],
             (promise_all (map (visit dir) entries2)) as [o2|e2]; simpl;
      try done.
    unfold flat. by rewrite concat_app. }
  rewrite Happ. split.
  - by intros out1 out2 -> ->.
  - intros out.
    destruct (readFilesRecursively dir (Ok entries1)) as [out1|e1]; [|done].
    destruct (readFilesRecursively dir (Ok entries2)) as [out2|e2]; [|done].
    intros [= <-]. by exists out1, out2.
Qed.

Lemma read_cons dir entry entries :
  readFilesRecursively dir (Ok (entry :: entries)) =
  match visit dir entry, readFilesRecursively dir (Ok entries) with
  | Ok o, Ok out => Ok (o ++ out)
  | Err e, _ => Err e
  | Ok _, Err e => Err e
  end.
Proof.
  unfold readFilesRecursively. cbn [map promise_all].
  destruct (visit dir entry) as [o|e]; [|done].
  by destruct (promise_all (map (visit dir) entries)).
Qed.

Lemma read_Ok_incl dir entries out entry :
  readFilesRecursively dir (Ok entries) = Ok out → entry ∈ entries →
  ∃ o, visit dir entry = Ok o ∧ ∀ p, p ∈ o → p ∈ out.
Proof.
  revert out. induction entries as [|x entries IH]; intros out Hread Hin.
  - by apply elem_of_nil in Hin.
  - rewrite read_cons in Hread.
    destruct (visit dir x) as [o|e] eqn:Hx; [|done].
    destruct (readFilesRecursively dir (Ok entries)) as [out'|e]; [|done].
    injection Hread as <-.
    apply elem_of_cons in Hin as [->|Hin].
    + exists o. split; [done|]. intros p Hp. apply elem_of_app. by left.
    + destruct (IH out' eq_refl Hin) as (o' & Ho' & Hincl).
      exists o'. split; [done|]. intros p Hp. apply elem_of_app. right. by apply Hincl.
Qed.

Lemma visit_picked entry :
  ∀ dir out p entries,
    visit dir entry = Ok out → p ∈ out → entry ∈ entries →
    picked dir entries p.
Proof.
  induction entry as [name|name sub IH|name err] using node_nested_ind;
    intros dir out p entries Hv Hp Hin.
  - rewrite visit_File in Hv.
    destruct (has allowedExtensions _) eqn:Hext.
    + injection Hv as <-. apply list_elem_of_singleton in Hp as ->.
      apply picked_here; [done|]. by apply has_true.
    + injection Hv as <-. by apply elem_of_nil in Hp.
  - rewrite visit_Dir in Hv. destruct (has ignoredDirs name) eqn:Hden.
    { injection Hv as <-. by apply elem_of_nil in Hp. }
    destruct (read_Ok_elem _ _ _ _ Hv Hp) as (x & o & Hx & Hvx & Hpo).
    apply (picked_below dir entries name sub); [done|by apply has_false|].
    rewrite Forall_forall in IH. by apply (IH x Hx _ o).
  - rewrite visit_BadDir in Hv. destruct (has ignoredDirs name); [|done].
    injection Hv as <-. by apply elem_of_nil in Hp.
Qed.

(** X1: when the selector gives a list, a path is in it exactly when it is
    the path of a file of the tree whose extension is in the allow-set and
    that lies below no directory whose name is in the deny-set. *)
Theorem selection_is_exact dir entries out p :
  readFilesRecursively dir (Ok entries) = Ok out →
  (p ∈ out ↔ picked dir entries p).
Proof.
  intros Hread. split.
  - intros Hp. destruct (read_Ok_elem _ _ _ _ Hread Hp) as (x & o & Hx & Hvx & Hpo).
    by apply (visit_picked x dir o).
  - intros Hpick. revert out Hread.
    induction Hpick as [dir entries name Hin Hext
                       |dir entries name sub p Hin Hden _ IH]; intros out Hread.
    + destruct (read_Ok_incl _ _ _ _ Hread Hin) as (o & Ho & Hincl).
      apply Hincl. rewrite visit_File in Ho. apply has_true in Hext.
      rewrite Hext in Ho. injection Ho as <-. left.
    + destruct (read_Ok_incl _ _ _ _ Hread Hin) as (o & Ho & Hincl).
      apply Hincl. rewrite visit_Dir in Ho. apply has_false in Hden.
      rewrite Hden in Ho. by apply IH.
Qed.

(** X2: an error of the selector is the error of the listing of the root or
    of a directory that the traversal lists; when none of those fails the
    selector gives a list, whatever fails below denied directories. *)
Theorem selector_errors_come_from_listings dir listing :
  (∀ e, readFilesRecursively dir listing = Err e → listing_fails listing e) ∧
  ((∀ e, ¬ listing_fails listing e) →
   ∃ out, readFilesRecursively dir listing = Ok out).
Proof.
  assert (∀ e, readFilesRecursively dir listing = Err e →
               listing_fails listing e) as Hsound.
  { intros e He. destruct listing as [entries|e0]; simpl in *.
    - destruct (read_Err_elem _ _ _ He) as (x & Hx & Hvx).
      by apply (visit_Err_fails x dir).
    - by injection He as ->. }
  split; [done|]. intros Hnone.
  destruct (readFilesRecursively dir listing) as [out|e] eqn:Hread; [by eauto|].
  destruct (Hnone e). by apply Hsound.
Qed.

(** No path twice *)
Lemma visit_prefix dir entry o p :
  wf_node entry = true → visit dir entry = Ok o → p ∈ o →
  ∃ rest, at_boundary rest ∧
          p = base dir +:+ path.sep +:+ node_name entry +:+ rest.
Proof.
  intros Hwf Hv Hp. destruct entry as [name|name sub|name err].
  - rewrite visit_File in Hv. destruct (has allowedExtensions _).
    + injection Hv as <-. apply list_elem_of_singleton in Hp as ->.
      exists "". split; [by left|]. by rewrite resolve_base, append_nil_r.
    + injection Hv as <-. by apply elem_of_nil in Hp.
  - rewrite visit_Dir in Hv. destruct (has ignoredDirs name); simpl.
    { injection Hv as <-. by apply elem_of_nil in Hp. }
    destruct (read_selectable _ _ _ _ (wf_Dir _ _ Hwf) Hv Hp)
      as (above & file & -> & _ & _).
    exists (below (above ++ [file])). split; [apply below_boundary|].
    apply wf_node_name in Hwf. simpl in Hwf.
    rewrite base_resolve by by apply wf_name_nonempty.
    by rewrite resolve_base, !append_assoc.
  - rewrite visit_BadDir in Hv. destruct (has ignoredDirs name); [|done].
    injection Hv as <-. by apply elem_of_nil in Hp.
Qed.

Lemma read_NoDup dir entries :
  Forall (λ e, ∀ o, visit dir e = Ok o → NoDup o) entries →
  forallb wf_node entries = true →
  NoDup (map node_name entries) →
  ∀ out, readFilesRecursively dir (Ok entries) = Ok out → NoDup out.
Proof.
  induction 1 as [|x entries Hx _ IH]; intros Hwf Hnames out Hread.
  - injection Hread as <-. constructor.
  - rewrite read_cons in Hread.
    destruct (visit dir x) as [o|e] eqn:Hvx; [|done].
    destruct (readFilesRecursively dir (Ok entries)) as [out'|e] eqn:Hrest; [|done].
    injection Hread as <-.
    simpl in Hwf. apply andb_prop in Hwf as [Hwx Hwf].
    simpl in Hnames. apply NoDup_cons in Hnames as [Hfresh Hnames].
    apply NoDup_app. split_and!; [by apply Hx| |by apply IH].
    intros p Hp Hp'.
    destruct (visit_prefix dir x o p Hwx Hvx Hp) as (rest & Hrest1 & Heq).
    destruct (read_Ok_elem _ _ _ _ Hrest Hp') as (y & o' & Hy & Hvy & Hpy).
    assert (wf_node y = true) as Hwy by by eapply wf_entries_elem.
    destruct (visit_prefix dir y o' p Hwy Hvy Hpy) as (rest' & Hrest2 & Heq').
    rewrite Heq in Heq'.
    apply (inj (String.append (base dir))) in Heq'.
    apply (inj (String.append path.sep)) in Heq'.
    apply segment_split in Heq' as [Hname _]; [|
      by apply wf_name_sepfree, wf_node_name..|done|done].
    apply Hfresh. rewrite Hname.
    apply list_elem_of_In, in_map, list_elem_of_In. done.
Qed.

Lemma visit_NoDup entry :
  ∀ dir o,
    wf_node entry = true → distinct_names entry = true →
    visit dir entry = Ok o → NoDup o.
Proof.
  induction entry as [name|name sub IH|name err] using node_nested_ind;
    intros dir o Hwf Hdist Hv.
  - rewrite visit_File in Hv. destruct (has allowedExtensions _);
      injection Hv as <-; [apply NoDup_singleton|constructor].
  - rewrite visit_Dir in Hv. destruct (has ignoredDirs name).
    { injection Hv as <-. constructor. }
    simpl in Hdist. apply andb_prop in Hdist as [Hnames Hdist].
    apply bool_decide_eq_true in Hnames.
    pose proof (wf_Dir _ _ Hwf) as Hwsub.
    apply (read_NoDup (path.resolve dir name) sub); [|done|done|done].
    rewrite Forall_forall in IH. apply Forall_forall. intros x Hx o' Hvx.
    apply (IH x Hx (path.resolve dir name) o');
      [by eapply wf_entries_elem| |done].
    rewrite forallb_forall in Hdist. by apply Hdist, list_elem_of_In.
  - rewrite visit_BadDir in Hv. destruct (has ignoredDirs name); [|done].
    injection Hv as <-. constructor.
Qed.

(** X4: in a tree of file-system names where no directory holds two
    entries of one name, no path is in the output twice. *)
Theorem no_path_selected_twice dir entries out :
  forallb wf_node entries = true →
  NoDup (map node_name entries) →
  forallb distinct_names entries = true →
  readFilesRecursively dir (Ok entries) = Ok out →
  NoDup out.
Proof.
  intros Hwf Hnames Hdist. apply read_NoDup; [|done|done].
  apply Forall_forall. intros x Hx o Hvx.
  apply (visit_NoDup x dir); [by eapply wf_entries_elem| |done].
  rewrite forallb_forall in Hdist. by apply Hdist, list_elem_of_In.
Qed.

(** ** Traces of the provisioner *)

Lemma console_errors_app tr1 tr2 :
  console_errors (tr1 ++ tr2) = console_errors tr1 ++ console_errors tr2.
Proof. unfold console_errors. apply omap_app. Qed.

Lemma remote_calls_app tr1 tr2 :
  remote_calls (tr1 ++ tr2) = remote_calls tr1 ++ remote_calls tr2.
Proof. unfold remote_calls. apply filter_app. Qed.

Section ProvisionerTraces.
Context {W : Type} {pc : Pinecone W} {timers : Timers W}.

Lemma turns_console_errors indexName n :
  console_errors (concat (replicate n (waiting_turn indexName))) = [].
Proof. induction n as [|n IH]; [done|]. simpl. exact IH. Qed.

Lemma turns_remote_calls indexName n :
  remote_calls (concat (replicate n (waiting_turn indexName)))
  = replicate n (DescribeIndex indexName).
Proof.
  induction n as [|n IH]; [done|].
  simpl. unfold remote_calls in *. rewrite filter_cons_True by done.
  rewrite filter_cons_False by done. rewrite filter_cons_False by done.
  by rewrite IH.
Qed.

Lemma wait_console_errors fuel indexName w :
  console_errors (events (wait_until_ready fuel indexName w)) = [].
Proof.
  destruct (wait_cases indexName fuel w)
    as [(k & _ & _ & _ & _ & ->)|(_ & _ & ->)].
  - by rewrite console_errors_app, turns_console_errors.
  - apply turns_console_errors.
Qed.

Lemma wait_remote_calls fuel indexName w :
  ∃ n, (n ≤ fuel)%nat ∧
       remote_calls (events (wait_until_ready fuel indexName w))
       = replicate n (DescribeIndex indexName).
Proof.
  destruct (wait_cases indexName fuel w)
    as [(k & Hk & _ & _ & _ & ->)|(_ & _ & ->)].
  - exists (S k). split; [lia|].
    rewrite remote_calls_app, turns_remote_calls.
    change (remote_calls [DescribeIndex indexName])
      with (replicate 1 (DescribeIndex indexName)).
    rewrite <- replicate_add. f_equal. lia.
  - exists fuel. split; [lia|]. apply turns_remote_calls.
Qed.

(** The whole run, by the answers of the listing and of the creation. *)
Lemma initialize_run fuel indexName w :
  initializePineconeIndex fuel indexName w =
  match listIndexes w with
  | (Err e, w1) =>
      Outcome (Throw e) w1 [ListIndexes; ConsoleError initialize_error e]
  | (Ok response, w1) =>
      let create :=
        match IndexList.indexes response with
        | Some models => negb (includes (map IndexModel.name models) indexName)
        | None => true
        end in
      let o := after_listing create fuel indexName w1 in
      Outcome (completed o) (world o) (ListIndexes :: events o)
  end.
Proof.
  destruct (listIndexes w) as [[response|e] w1] eqn:Hl.
  - by apply initialize_listed.
  - unfold initializePineconeIndex. unfold_prog. by rewrite Hl.
Qed.

Lemma after_listing_run create fuel indexName w1 :
  after_listing create fuel indexName w1 =
  let request := create_request indexName in
  let finish (pre : list event) (w2 : W) :=
    let o := wait_until_ready fuel indexName w2 in
    Outcome (completed o) (world o)
      (pre ++ events o ++
       match completed o with
       | Throw e => [ConsoleError initialize_error e]
       | _ => []
       end) in
  if create then
    match createIndex request w1 with
    | (Err e, w2) =>
        Outcome (Throw e) w2
          [CreateIndex request; ConsoleError initialize_error e]
    | (Ok _, w2) => finish [CreateIndex request] w2
    end
  else finish [] w1.
Proof.
  unfold after_listing. unfold_prog. destruct create; simpl.
  - destruct (createIndex _ w1) as [[[]|e] w2]; simpl; [|done].
    destruct (completed (wait_until_ready fuel indexName w2)); simpl;
      by rewrite ?app_nil_r.
  - destruct (completed (wait_until_ready fuel indexName w1)); simpl;
      by rewrite ?app_nil_r.
Qed.

(** X9: a run of the provisioner that throws has logged the thrown error
    with [console.error] exactly once, as its last action; a run that does
    not throw has logged no error. *)
Theorem exceptions_are_logged_once fuel indexName w :
  let o := initializePineconeIndex fuel indexName w in
  match completed o with
  | Throw e =>
      console_errors (events o) = [("Error initializing Pinecone index:", e)] ∧
      last (events o)
        = Some (ConsoleError "Error initializing Pinecone index:" e)
  | _ => console_errors (events o) = []
  end.
Proof.
  intros o. subst o. rewrite initialize_run.
  destruct (listIndexes w) as [[response|e] w1]; [|done].
  cbv zeta. rewrite after_listing_run. cbv zeta.
  set (create := match IndexList.indexes response with
                 | Some _ => _ | None => _ end). clearbody create.
  destruct create.
  - destruct (createIndex _ w1) as [[[]|e] w2]; [|done].
    cbn [completed events].
    pose proof (wait_console_errors fuel indexName w2) as Hw.
    destruct (completed (wait_until_ready fuel indexName w2)) as [[]|e|].
    + rewrite app_nil_r. unfold console_errors in *. simpl. exact Hw.
    + split.
      * unfold console_errors in *. simpl. rewrite omap_app, Hw. done.
      * rewrite app_comm_cons, app_assoc. apply last_snoc.
    + rewrite app_nil_r. unfold console_errors in *. simpl. exact Hw.
  - cbn [completed events].
    pose proof (wait_console_errors fuel indexName w1) as Hw.
    destruct (completed (wait_until_ready fuel indexName w1)) as [[]|e|].
    + rewrite app_nil_r. unfold console_errors in *. simpl. exact Hw.
    + split.
      * unfold console_errors in *. simpl. rewrite omap_app, Hw. done.
      * rewrite app_comm_cons, app_assoc. apply last_snoc.
    + rewrite app_nil_r. unfold console_errors in *. simpl. exact Hw.
Qed.

(** X10: when the listing fails, the provisioner makes no other call; when
    the creation of an absent index fails, it never describes the index.
    Either error is logged and thrown again. *)
Theorem failed_setup_skips_the_wait fuel indexName w :
  (∀ e w1,
     listIndexes w = (Err e, w1) →
     initializePineconeIndex fuel indexName w =
     Outcome (Throw e) w1
       [ListIndexes; ConsoleError "Error initializing Pinecone index:" e]) ∧
  (∀ response w1 e w2,
     listIndexes w = (Ok response, w1) →
     (∀ models, IndexList.indexes response = Some models →
                indexName ∉ map IndexModel.name models) →
     createIndex (CreateIndexOptions.mk indexName 1536
                    (serverless "aws" "us-east-1")) w1 = (Err e, w2) →
     initializePineconeIndex fuel indexName w =
     Outcome (Throw e) w2
       [ListIndexes;
        CreateIndex (CreateIndexOptions.mk indexName 1536
                       (serverless "aws" "us-east-1"));
        ConsoleError "Error initializing Pinecone index:" e]).
Proof.
  split.
  - intros e w1 Hl. by rewrite initialize_run, Hl.
  - intros response w1 e w2 Hl Habsent Hc.
    rewrite initialize_run, Hl. cbv zeta. rewrite after_listing_run. cbv zeta.
    assert (match IndexList.indexes response with
            | Some models => negb (includes (map IndexModel.name models) indexName)
            | None => true
            end = true) as ->.
    { destruct (IndexList.indexes response) as [models|]; [|done].
      unfold includes. by rewrite bool_decide_eq_false_2 by by apply Habsent. }
    unfold create_request in *. by rewrite Hc.
Qed.

(** X11: the calls of the provisioner on the store are, in order: one
    listing, at most one creation request for the index, then only
    descriptions of that index. *)
Theorem control_calls_in_order fuel indexName w :
  ∃ created n,
    (created = [] ∨
     created = [CreateIndex (CreateIndexOptions.mk indexName 1536
                               (serverless "aws" "us-east-1"))]) ∧
    (n ≤ fuel)%nat ∧
    remote_calls (events (initializePineconeIndex fuel indexName w))
    = ListIndexes :: created ++ replicate n (DescribeIndex indexName).
Proof.
  rewrite initialize_run.
  destruct (listIndexes w) as [[response|e] w1].
  2:{ exists [], 0%nat. split_and!; [by left|lia|done]. }
  cbv zeta. rewrite after_listing_run. cbv zeta.
  set (create := match IndexList.indexes response with
                 | Some _ => _ | None => _ end). clearbody create.
  assert (∀ pre w2,
    remote_calls (pre ++ events (wait_until_ready fuel indexName w2) ++
       match completed (wait_until_ready fuel indexName w2) with
       | Throw e => [ConsoleError initialize_error e]
       | _ => []
       end)
    = remote_calls pre ++
      remote_calls (events (wait_until_ready fuel indexName w2))) as Hfin.
  { intros pre w2. rewrite !remote_calls_app.
    destruct (completed _); simpl; by rewrite app_nil_r. }
  destruct create.
  - destruct (createIndex _ w1) as [[[]|e] w2].
    + destruct (wait_remote_calls fuel indexName w2) as (n & Hn & Hcalls).
      exists [CreateIndex (create_request indexName)], n.
      split_and!; [by right|done|]. cbn [events].
      change (remote_calls (ListIndexes :: ?tr))
        with (ListIndexes :: remote_calls tr).
      by rewrite Hfin, Hcalls.
    + exists [CreateIndex (create_request indexName)], 0%nat.
      split_and!; [by right|lia|done].
  - destruct (wait_remote_calls fuel indexName w1) as (n & Hn & Hcalls).
    exists [], n. split_and!; [by left|done|]. cbn [events].
    change (remote_calls (ListIndexes :: ?tr))
      with (ListIndexes :: remote_calls tr).
    by rewrite Hfin, Hcalls.
Qed.

End ProvisionerTraces.

(** ** Traces of the driver *)

Section DriverTraces.
Context {W : Type} {fs : FileSystem W} {openai : OpenAI W}
        {index : PineconeIndex W}.

Lemma for_files_count indexName dryrunMode files :
  ∀ k k' w,
    events (for_files files indexName dryrunMode k w)
      = events (for_files files indexName dryrunMode k' w) ∧
    world (for_files files indexName dryrunMode k w)
      = world (for_files files indexName dryrunMode k' w).
Proof.
  induction files as [|file files IH]; intros k k' w; [done|].
  rewrite !for_files_cons. cbn [events world].
  set (o := index_one file indexName dryrunMode w).
  destruct (IH (count_after k (completed o)) (count_after k' (completed o))
              (world o)) as [-> ->]. done.
Qed.

Ltac solve_about :=
  repeat (apply Forall_cons_2; [simpl; try done|]); try apply Forall_nil.

Lemma index_one_about file indexName dryrunMode w :
  Forall (about_files [file] indexName)
    (events (index_one file indexName dryrunMode w)
     ++ catch_events file (completed (index_one file indexName dryrunMode w))).
Proof.
  assert (file ∈ [file]) as Hin by left.
  rewrite index_one_run.
  destruct (fs_readFile file w) as [[content|e] w1]; simpl;
    [|by solve_about].
  assert (about_files [file] indexName
            (EmbeddingsCreate
               (EmbeddingCreateParams.mk embedding_model
                  (contentWithFilePath file content)))) as Hemb.
  { split; [done|]. by exists file, content. }
  destruct dryrunMode; simpl; [by solve_about|].
  destruct (embeddings_create _ w1) as [[response|e] w2]; simpl;
    [|by solve_about].
  destruct (CreateEmbeddingResponse.data response) as [|d ds]; simpl;
    [by solve_about|].
  assert (about_files [file] indexName
            (Upsert indexName
               [index_entry file (contentWithFilePath file content)
                  (Embedding.embedding d)])) as Hup.
  { split; [done|]. by exists file, content, (Embedding.embedding d). }
  destruct (index_upsert indexName _ w2) as [[[]|e] w3]; simpl;
    by solve_about.
Qed.

Lemma about_files_mono files files' indexName ev :
  (∀ f, f ∈ files → f ∈ files') →
  about_files files indexName ev → about_files files' indexName ev.
Proof.
  intros Hincl. destruct ev; simpl; try done.
  - apply Hincl.
  - intros [Hm (f & c & Hf & Hi)]. split; [done|]. exists f, c. auto.
  - intros [Hn (f & c & v & Hf & Hr)]. split; [done|]. exists f, c, v. auto.
Qed.

Lemma for_files_about indexName dryrunMode all files :
  (∀ f, f ∈ files → f ∈ all) →
  ∀ k w,
    Forall (about_files all indexName)
      (events (for_files files indexName dryrunMode k w)).
Proof.
  induction files as [|file files IH]; intros Hincl k w; [constructor|].
  rewrite for_files_cons. cbn [events]. apply Forall_app. split.
  - eapply Forall_impl; [apply index_one_about|].
    intros ev. apply about_files_mono.
    intros f ->%list_elem_of_singleton. apply Hincl. left.
  - apply IH. intros f Hf. apply Hincl. by right.
Qed.

(** X13: in any run of the driver, every file read is a file of the list,
    every embedding request uses the model [text-embedding-3-small] on the
    text of a file of the list, and every upsert goes to the index of the
    run with exactly one record, whose id and metadata path are a file of
    the list.  The driver makes no call on the control plane. *)
Theorem calls_are_about_listed_files files indexName dryrunMode w :
  Forall (about_files files indexName)
    (events (indexFiles files indexName dryrunMode w)).
Proof.
  rewrite indexFiles_run. cbn [events]. apply Forall_app. split.
  - by apply for_files_about.
  - by solve_about.
Qed.

Lemma index_one_errors file indexName dryrunMode w :
  map fst (console_errors
             (events (index_one file indexName dryrunMode w)
              ++ catch_events file
                   (completed (index_one file indexName dryrunMode w))))
  = if processing_fails file indexName dryrunMode w
    then ["Error indexing file " +:+ file +:+ ":"] else [].
Proof.
  rewrite index_one_run. unfold processing_fails.
  destruct (fs_readFile file w) as [[content|e] w1]; simpl; [|done].
  destruct dryrunMode; simpl; [done|].
  fold (contentWithFilePath file content).
  destruct (embeddings_create _ w1) as [[response|e] w2]; simpl; [|done].
  destruct (CreateEmbeddingResponse.data response) as [|d ds]; simpl; [done|].
  fold (index_entry file (contentWithFilePath file content) (Embedding.embedding d)).
  destruct (index_upsert indexName _ w2) as [[[]|e] w3]; simpl; done.
Qed.

Lemma for_files_errors indexName dryrunMode files :
  ∀ k w,
    map fst (console_errors (events (for_files files indexName dryrunMode k w)))
    = map (λ file, "Error indexing file " +:+ file +:+ ":")
          (failed_files files indexName dryrunMode w) ∧
    length (failed_files files indexName dryrunMode w)
    = failed_count files indexName dryrunMode w.
Proof.
  induction files as [|file files IH]; intros k w; [done|].
  rewrite for_files_cons. cbn [events failed_files failed_count].
  rewrite console_errors_app, !map_app, length_app, index_one_errors.
  set (o := index_one file indexName dryrunMode w).
  destruct (IH (count_after k (completed o)) (world o)) as [-> ->].
  by destruct (processing_fails file indexName dryrunMode w).
Qed.

(** X14: the [console.error] lines of a run are, in order, one line
    [Error indexing file <file>:] for each file that fails, and their number
    is the number of failed files of the summary. *)
Theorem each_failure_is_logged_once files indexName dryrunMode w :
  map fst (console_errors (events (indexFiles files indexName dryrunMode w)))
  = map (λ file, "Error indexing file " +:+ file +:+ ":")
        (failed_files files indexName dryrunMode w) ∧
  length (failed_files files indexName dryrunMode w)
  = failed_count files indexName dryrunMode w.
Proof.
  rewrite indexFiles_run. cbn [events].
  destruct (for_files_errors indexName dryrunMode files 0%nat w) as [He Hl].
  split; [|done].
  rewrite console_errors_app, map_app, He. simpl. apply app_nil_r.
Qed.

Lemma failed_count_app indexName dryrunMode xs ys :
  ∀ w,
    failed_count (xs ++ ys) indexName dryrunMode w
    = (failed_count xs indexName dryrunMode w
       + failed_count ys indexName dryrunMode
           (world (for_files xs indexName dryrunMode 0%nat w)))%nat.
Proof.
  induction xs as [|x xs IH]; intros w; [done|].
  simpl app. cbn [failed_count]. rewrite IH, for_files_cons. cbn [world].
  set (o := index_one x indexName dryrunMode w).
  destruct (for_files_count indexName dryrunMode xs 0%nat
              (count_after 0 (completed o)) (world o)) as [_ ->].
  lia.
Qed.

(** X15: a run over a list made of two parts leaves the world that a run
    over the first part followed by a run over the second leaves, with the
    same reads and upserts in the same order, and as many failures. *)
Theorem run_in_two_batches xs ys indexName dryrunMode w :
  let whole := indexFiles (xs ++ ys) indexName dryrunMode w in
  let first := indexFiles xs indexName dryrunMode w in
  let second := indexFiles ys indexName dryrunMode (world first) in
  world whole = world second ∧
  reads (events whole) = reads (events first) ++ reads (events second) ∧
  upserts (events whole) = upserts (events first) ++ upserts (events second) ∧
  failed_count (xs ++ ys) indexName dryrunMode w
  = (failed_count xs indexName dryrunMode w
     + failed_count ys indexName dryrunMode (world first))%nat.
Proof.
  intros whole first second. subst whole first second.
  rewrite !indexFiles_run. cbn [world events].
  destruct (for_files_app indexName dryrunMode xs ys 0%nat w)
    as (n & _ & He & Hw).
  destruct (for_files_count indexName dryrunMode ys n 0%nat
              (world (for_files xs indexName dryrunMode 0%nat w))) as [He' Hw'].
  rewrite He, Hw, He', Hw'. split_and!.
  - done.
  - rewrite !reads_app. simpl. by rewrite !app_nil_r.
  - rewrite !upserts_app. simpl. by rewrite !app_nil_r.
  - apply failed_count_app.
Qed.

(** X16: when the embedder answers with an empty [data] array, reading
    [data[0].embedding] throws a [TypeError]: the file is logged as failed,
    nothing is upserted for it, it is not counted, and the run goes on with
    the next files. *)
Theorem empty_embedding_answer_is_a_failure
    file files indexName w content w1 response w2 :
  fs_readFile file w = (Ok content, w1) →
  embeddings_create
    (EmbeddingCreateParams.mk "text-embedding-3-small"
       ("File path: " +:+ file +:+ nl +:+ nl +:+ content)) w1
    = (Ok response, w2) →
  CreateEmbeddingResponse.data response = [] →
  ∃ e,
    events (indexFiles (file :: files) indexName false w)
    = ReadFile file
      :: EmbeddingsCreate
           (EmbeddingCreateParams.mk "text-embedding-3-small"
              ("File path: " +:+ file +:+ nl +:+ nl +:+ content))
      :: ConsoleError ("Error indexing file " +:+ file +:+ ":") (TypeError e)
      :: events (for_files files indexName false 0%nat w2)
      ++ [ConsoleLog
            (summary false
               (length files - failed_count files indexName false w2)
               (S (length files)) indexName)].
Proof.
  intros Hread Hembed Hdata. eexists.
  rewrite indexFiles_run. cbn [events failed_count length].
  rewrite for_files_cons. cbn [events].
  unfold processing_fails.
  rewrite index_one_run, Hread. cbv zeta iota.
  unfold contentWithFilePath, embedding_model.
  rewrite Hembed, Hdata. cbn [completed world events catch_events count_after].
  simpl. reflexivity.
Qed.

End DriverTraces.

(** ** The index after a run *)

Section DeterministicIndex.
Variable content : string → result string.
Variable embed : EmbeddingCreateParams.t → result CreateEmbeddingResponse.t.
Variable accepts : list PineconeRecord.t → bool.

Local Abbreviation fs := (det_fs content).
Local Abbreviation openai := (det_openai embed).
Local Abbreviation index := (det_index accepts).
Local Abbreviation step := (store_step content embed accepts).

Lemma fetch_step k store file :
  fetch k (step store file) =
  match attempted content embed file with
  | Some r => if accepts [r] && bool_decide (k = file) then Some r
              else fetch k store
  | None => fetch k store
  end.
Proof.
  unfold store_step.
  destruct (attempted content embed file) as [r|] eqn:Hr; [|done].
  destruct (accepts [r]); [|done]. cbn [andb].
  pose proof (attempted_id content embed file r Hr) as Hid.
  case_bool_decide as Hk.
  - subst k. rewrite <- Hid. apply fetch_upsert_eq.
  - apply fetch_upsert_ne. by rewrite Hid.
Qed.

Lemma fetch_foldl k files :
  ∀ store,
    fetch k (foldl step store files) =
    match attempted content embed k with
    | Some r => if accepts [r] && bool_decide (k ∈ files) then Some r
                else fetch k store
    | None => fetch k store
    end.
Proof.
  induction files as [|x files IH]; intros store.
  - cbn [foldl]. destruct (attempted content embed k) as [r|]; [|done].
    rewrite (bool_decide_eq_false_2 (k ∈ [])) by apply not_elem_of_nil.
    by rewrite andb_false_r.
  - cbn [foldl]. rewrite IH, fetch_step.
    destruct (decide (k = x)) as [->|Hne].
    + destruct (attempted content embed x) as [r|]; [|done].
      destruct (accepts [r]); [|done]. cbn [andb].
      rewrite (bool_decide_eq_true_2 (x = x)) by done.
      rewrite (bool_decide_eq_true_2 (x ∈ x :: files)) by apply list_elem_of_here.
      by destruct (bool_decide (x ∈ files)).
    + assert (bool_decide (k ∈ x :: files) = bool_decide (k ∈ files)) as ->.
      { apply bool_decide_ext. rewrite elem_of_cons.
        split; [intros [?|?]; [congruence|done]|by right]. }
      rewrite (bool_decide_eq_false_2 (k = x)) by done.
      destruct (attempted content embed k) as [r|];
        destruct (attempted content embed x) as [r'|]; try done;
        rewrite ?andb_false_r; done.
Qed.

(** X18: in the deterministic world, after a run outside dry-run mode the
    record fetched for a file of the list that does not fail is the record
    built from its content and embedding; the record of an id that is not in
    the list, or of a file that fails, is the one that was there before. *)
Theorem index_after_a_run files indexName store :
  let o := @indexFiles _ fs openai index files indexName false store in
  (∀ file c response d ds,
     file ∈ files →
     content file = Ok c →
     embed (EmbeddingCreateParams.mk "text-embedding-3-small"
              ("File path: " +:+ file +:+ nl +:+ nl +:+ c)) = Ok response →
     CreateEmbeddingResponse.data response = d :: ds →
     accepts [PineconeRecord.mk file (Embedding.embedding d)
                (RecordMetadata.mk file
                   ("File path: " +:+ file +:+ nl +:+ nl +:+ c))] = true →
     fetch file (world o)
     = Some (PineconeRecord.mk file (Embedding.embedding d)
               (RecordMetadata.mk file
                  ("File path: " +:+ file +:+ nl +:+ nl +:+ c)))) ∧
  (∀ k, k ∉ files → fetch k (world o) = fetch k store) ∧
  (∀ file,
     @processing_fails _ fs openai index file indexName false store = true →
     fetch file (world o) = fetch file store).
Proof.
  intros o. subst o.
  destruct (det_run content embed accepts files indexName store) as [-> _].
  split_and!.
  - intros file c response d ds Hin Hc He Hd Hacc.
    rewrite fetch_foldl. unfold attempted.
    rewrite Hc. unfold embedding_model, contentWithFilePath.
    rewrite He, Hd. unfold index_entry. rewrite Hacc.
    by rewrite bool_decide_eq_true_2.
  - intros k Hk. rewrite fetch_foldl.
    destruct (attempted content embed k) as [r|]; [|done].
    rewrite (bool_decide_eq_false_2 (k ∈ files)) by done.
    by rewrite andb_false_r.
  - intros file Hfails. rewrite fetch_foldl.
    destruct (det_index_one content embed accepts file indexName store)
      as (_ & _ & Hf).
    rewrite Hf in Hfails. apply negb_true_iff in Hfails.
    destruct (attempted content embed file) as [r|]; [|done].
    by rewrite Hfails.
Qed.

Lemma ids_upsert_elem k r store :
  k ∈ ids (upsert_record r store) ↔ k ∈ ids store ∨ k = PineconeRecord.id r.
Proof.
  rewrite ids_upsert. case_bool_decide as Hin.
  - split; [by left|]. by intros [?| ->].
  - rewrite elem_of_app, list_elem_of_singleton. done.
Qed.

Lemma ids_step_elem k indexName store file :
  k ∈ ids (step store file) ↔
  k ∈ ids store ∨
  (k = file ∧
   @processing_fails _ fs openai index file indexName false store = false).
Proof.
  destruct (det_index_one content embed accepts file indexName store)
    as (_ & _ & ->).
  unfold store_step.
  destruct (attempted content embed file) as [r|] eqn:Hr.
  - destruct (accepts [r]); simpl.
    + rewrite ids_upsert_elem, (attempted_id content embed file r Hr).
      intuition.
    + intuition discriminate.
  - simpl. intuition discriminate.
Qed.

Lemma fails_anywhere indexName file store store' :
  @processing_fails _ fs openai index file indexName false store
  = @processing_fails _ fs openai index file indexName false store'.
Proof.
  destruct (det_index_one content embed accepts file indexName store)
    as (_ & _ & ->).
  by destruct (det_index_one content embed accepts file indexName store')
    as (_ & _ & ->).
Qed.

Lemma ids_foldl_elem k indexName files :
  ∀ store,
    k ∈ ids (foldl step store files) ↔
    k ∈ ids store ∨
    (k ∈ files ∧
     @processing_fails _ fs openai index k indexName false store = false).
Proof.
  induction files as [|x files IH]; intros store.
  - simpl. split; [by left|]. intros [?|[?%elem_of_nil _]]; done.
  - cbn [foldl]. rewrite IH, (ids_step_elem k indexName), elem_of_cons.
    rewrite (fails_anywhere indexName k (step store x) store).
    intuition (subst; auto).
Qed.

(** X19: in the deterministic world a run removes no record and adds
    records for files of the list only: an id is in the index after the run
    exactly when it was there before or is a file of the list that does not
    fail.  Records of files that are no longer listed stay. *)
Theorem a_run_only_adds_records files indexName store k :
  k ∈ ids (world (@indexFiles _ fs openai index files indexName false store)) ↔
  k ∈ ids store ∨
  (k ∈ files ∧
   @processing_fails _ fs openai index k indexName false store = false).
Proof.
  destruct (det_run content embed accepts files indexName store) as [-> _].
  apply ids_foldl_elem.
Qed.

End DeterministicIndex.

(** ** The further properties on small inputs *)

Lemma selection_is_exact_witness :
  "/repo/src/b.ts" ∈ ["/repo/a.ts"; "/repo/src/b.ts"] ↔
  picked "/repo" [File "a.ts"; Dir "dist" [File "c.js"]; Dir "src" [File "b.ts"]]
    "/repo/src/b.ts".
Proof.
  apply (selection_is_exact "/repo"
           [File "a.ts"; Dir "dist" [File "c.js"]; Dir "src" [File "b.ts"]]).
  vm_compute. reflexivity.
Defined.

Lemma selector_errors_come_from_listings_witness :
  ∃ out,
    readFilesRecursively "/repo"
      (Ok [File "a.ts"; Dir "node_modules" [BadDir "locked" (Error "EACCES")]])
    = Ok out.
Proof.
  apply (proj2 (selector_errors_come_from_listings "/repo"
                  (Ok [File "a.ts";
                       Dir "node_modules" [BadDir "locked" (Error "EACCES")]]))).
  intros e H. simpl in H.
  inversion H as [es name e' Hin Hden|es name sub e' Hin Hden Hsub]; subst.
  - apply elem_of_cons in Hin as [Hin|Hin]; [discriminate Hin|].
    apply list_elem_of_singleton in Hin. discriminate Hin.
  - apply elem_of_cons in Hin as [Hin|Hin]; [discriminate Hin|].
    apply list_elem_of_singleton in Hin. injection Hin as -> ->.
    apply Hden, has_true. vm_compute. reflexivity.
Defined.

Lemma no_path_selected_twice_witness :
  NoDup ["/repo/a.ts"; "/repo/src/a.ts"].
Proof.
  apply (no_path_selected_twice "/repo" [File "a.ts"; Dir "src" [File "a.ts"]]).
  - vm_compute. reflexivity.
  - apply (bool_decide_unpack _). vm_compute. exact I.
  - vm_compute. reflexivity.
  - vm_compute. reflexivity.
Defined.

Lemma names_without_dot_are_skipped_witness :
  visit "/repo" (File "Dockerfile") = Ok [].
Proof. apply names_without_dot_are_skipped. reflexivity. Defined.

Lemma dotfiles_are_skipped_witness :
  visit "/repo" (File ("." +:+ "gitignore")) = Ok [].
Proof. apply dotfiles_are_skipped; reflexivity. Defined.

Lemma last_dot_decides_witness :
  visit "/repo" (File ("a.test" +:+ "." +:+ "ts")) =
  if has allowedExtensions ("." +:+ "ts")
  then Ok [path.resolve "/repo" ("a.test" +:+ "." +:+ "ts")]
  else Ok [].
Proof. apply last_dot_decides; [discriminate|reflexivity..]. Defined.

Lemma packer_entry_is_never_matched_witness :
  path.extname "build.pkr.hcl" ≠ ".pkr.hcl" ∧
  visit "/repo" (File ("build" +:+ ".pkr.hcl"))
    = Ok [path.resolve "/repo" ("build" +:+ ".pkr.hcl")].
Proof.
  split.
  - apply (proj1 (proj2 packer_entry_is_never_matched)). reflexivity.
  - apply (proj2 (proj2 packer_entry_is_never_matched)). reflexivity.
Defined.

Lemma failed_setup_skips_the_wait_witness :
  @initializePineconeIndex nat
    (refusing_pinecone (Ok (IndexList.mk None)) (Error "quota")) idle_timers
    3 "docs" 0%nat
  = Outcome (Throw (Error "quota")) 0%nat
      [ListIndexes;
       CreateIndex (CreateIndexOptions.mk "docs" 1536
                      (serverless "aws" "us-east-1"));
       ConsoleError "Error initializing Pinecone index:" (Error "quota")].
Proof.
  apply (proj2 (@failed_setup_skips_the_wait nat
                  (refusing_pinecone (Ok (IndexList.mk None)) (Error "quota"))
                  idle_timers 3 "docs" 0%nat)
           (IndexList.mk None) 0%nat).
  - reflexivity.
  - intros models H. discriminate H.
  - reflexivity.
Defined.

Lemma empty_embedding_answer_is_a_failure_witness :
  ∃ e,
    events (@indexFiles _ (det_fs one_file) (det_openai empty_embedder)
              (det_index (λ _, true)) ("/repo/f1" :: ["/repo/f2"]) "idx"
              false [])
    = ReadFile "/repo/f1"
      :: EmbeddingsCreate
           (EmbeddingCreateParams.mk "text-embedding-3-small"
              ("File path: " +:+ "/repo/f1" +:+ nl +:+ nl +:+ "hello"))
      :: ConsoleError ("Error indexing file " +:+ "/repo/f1" +:+ ":")
           (TypeError e)
      :: events (@for_files _ (det_fs one_file) (det_openai empty_embedder)
                   (det_index (λ _, true)) ["/repo/f2"] "idx" false 0%nat [])
      ++ [ConsoleLog
            (summary false
               (length ["/repo/f2"]
                - @failed_count _ (det_fs one_file) (det_openai empty_embedder)
                    (det_index (λ _, true)) ["/repo/f2"] "idx" false [])
               (S (length ["/repo/f2"])) "idx")].
Proof.
  apply (@empty_embedding_answer_is_a_failure _ (det_fs one_file)
           (det_openai empty_embedder) (det_index (λ _, true))
           "/repo/f1" ["/repo/f2"] "idx" [] "hello" []
           (CreateEmbeddingResponse.mk []) []); reflexivity.
Defined.

Lemma index_after_a_run_witness :
  fetch "/repo/f1"
    (world (@indexFiles _ (det_fs one_file) (det_openai constant_embedder)
              (det_index (λ _, true)) ["/repo/f1"; "/repo/f2"] "idx" false []))
  = Some (PineconeRecord.mk "/repo/f1" unit_vector
            (RecordMetadata.mk "/repo/f1"
               ("File path: " +:+ "/repo/f1" +:+ nl +:+ nl +:+ "hello"))).
Proof.
  apply (proj1 (index_after_a_run one_file constant_embedder (λ _, true)
                  ["/repo/f1"; "/repo/f2"] "idx" [])
           "/repo/f1" "hello"
           (CreateEmbeddingResponse.mk [Embedding.mk unit_vector])
           (Embedding.mk unit_vector) []);
    [left|reflexivity..].
Defined.

(** ** The call of the driver from its first line *)

Section DriverCall.
Context {handles : PineconeHandles} {W : Type} {fs : FileSystem W}
        {openai : OpenAI W} {index : PineconeIndex W}.

(** C2: once the handle of line 106 is made, a run of the driver reads
    every file of the list, in order, whatever fails on the way; it ends
    normally; and the summary that it logs last gives, out of the number of
    files, that number minus the number of files whose read, embedding or
    upsert failed.  When making the handle throws, the run rejects with
    that error before any read and logs no summary. *)
Theorem run_completes_once_the_handle_is_made files indexName dryrunMode w :
  let o := indexFiles_call files indexName dryrunMode w in
  let failed := failed_count files indexName dryrunMode w in
  (∀ handle,
     pc_index indexName = Ok handle →
     completed o = Normal tt ∧
     reads (events o) = files ∧
     (failed ≤ length files)%nat ∧
     last (events o)
     = Some (ConsoleLog
               ("Successfully " +:+
                (if dryrunMode then "simulated indexing" else "indexed") +:+
                " " +:+ pretty (length files - failed)%nat +:+
                " out of " +:+ pretty (length files) +:+
                " files in Pinecone under index '" +:+ indexName +:+ "'" +:+
                (if dryrunMode then " (dry run)" else "")))) ∧
  (∀ e, pc_index indexName = Err e → o = Outcome (Throw e) w []).
Proof.
  intros o failed. subst o failed. unfold indexFiles_call. split.
  - intros handle ->. rewrite indexFiles_run.
    destruct (for_files_total indexName dryrunMode files 0%nat w)
      as (Hle & _ & Hr).
    cbn [completed events]. split_and!; [done| |done|].
    + rewrite reads_app, Hr. simpl. by rewrite app_nil_r.
    + rewrite last_snoc. reflexivity.
  - intros e ->. reflexivity.
Qed.

Lemma index_one_attempt file indexName dryrunMode w :
  one_attempt file
    (events (index_one file indexName dryrunMode w)
     ++ catch_events file (completed (index_one file indexName dryrunMode w))).
Proof.
  rewrite index_one_run. unfold one_attempt.
  destruct (fs_readFile file w) as [[content|e] w1]; simpl;
    [|eexists; split_and!; [done|done|by left]].
  destruct dryrunMode; simpl; [eexists; split_and!; [done|done|by left]|].
  destruct (embeddings_create _ w1) as [[response|e] w2]; simpl;
    [|eexists; split_and!; [done|done|right; left; by eexists]].
  destruct (CreateEmbeddingResponse.data response) as [|d ds]; simpl;
    [eexists; split_and!; [done|done|right; left; by eexists]|].
  destruct (index_upsert indexName _ w2) as [[[]|e] w3]; simpl;
    eexists; (split_and!; [done|done|right; right; by do 3 eexists]).
Qed.

Lemma for_files_attempts indexName dryrunMode files :
  ∀ k w,
    ∃ turns,
      events (for_files files indexName dryrunMode k w) = concat turns ∧
      Forall2 one_attempt files turns.
Proof.
  induction files as [|file files IH]; intros k w.
  - exists []. split; [done|constructor].
  - rewrite for_files_cons. cbn [events].
    set (o := index_one file indexName dryrunMode w).
    destruct (IH (count_after k (completed o)) (world o)) as (turns & -> & Hall).
    exists ((events o ++ catch_events file (completed o)) :: turns).
    split; [done|]. constructor; [apply index_one_attempt|done].
Qed.

(** X17: once the handle is made, the trace of a run is, file by file in
    the order of the list, the read of the file followed by at most one
    embedding request and then at most one upsert, and then the summary:
    each file is read once and no call is made again. *)
Theorem no_call_is_retried files indexName dryrunMode w handle :
  pc_index indexName = Ok handle →
  ∃ turns line,
    events (indexFiles_call files indexName dryrunMode w)
    = concat turns ++ [ConsoleLog line] ∧
    Forall2 one_attempt files turns.
Proof.
  intros Hh. unfold indexFiles_call. rewrite Hh, indexFiles_run. cbn [events].
  destruct (for_files_attempts indexName dryrunMode files 0%nat w)
    as (turns & -> & Hall).
  by eexists turns, _.
Qed.

End DriverCall.

(** The run does not always complete: a client that refuses the index name
    makes the call reject before the loop, with no read and no summary. *)
Lemma run_aborts_when_the_handle_is_refused :
  let o := @indexFiles_call strict_handles _ (det_fs one_file)
             (det_openai constant_embedder) (det_index (λ _, true))
             ["/repo/f1"] "" false [] in
  events o = [] ∧
  ¬ (completed o = Normal tt ∧
     reads (events o) = ["/repo/f1"] ∧
     ∃ line, last (events o) = Some (ConsoleLog line)).
Proof.
  vm_compute. split; [reflexivity|]. intros (H & _). discriminate H.
Qed.

Lemma run_completes_once_the_handle_is_made_witness :
  let o := @indexFiles_call strict_handles _ (det_fs one_file)
             (det_openai constant_embedder) (det_index (λ _, true))
             ["/repo/f1"; "/repo/f2"] "idx" false [] in
  completed o = Normal tt ∧
  reads (events o) = ["/repo/f1"; "/repo/f2"] ∧
  last (events o)
  = Some (ConsoleLog
            "Successfully indexed 1 out of 2 files in Pinecone under index 'idx'").
Proof.
  intros o.
  destruct (proj1 (@run_completes_once_the_handle_is_made strict_handles _
                     (det_fs one_file) (det_openai constant_embedder)
                     (det_index (λ _, true))
                     ["/repo/f1"; "/repo/f2"] "idx" false []) tt eq_refl)
    as (Hc & Hr & _ & Hl).
  split_and!; [exact Hc|exact Hr|exact Hl].
Defined.

Lemma selection_follows_listing_order_witness :
  readFilesRecursively "/repo"
    (Ok ([Dir "src" [File "b.ts"]] ++ [File "a.ts"]))
  = Ok (["/repo/src/b.ts"] ++ ["/repo/a.ts"]).
Proof.
  apply (proj1 (selection_follows_listing_order "/repo"
                  [Dir "src" [File "b.ts"]] [File "a.ts"]));
    vm_compute; reflexivity.
Defined.

Lemma no_call_is_retried_witness :
  ∃ turns line,
    events (@indexFiles_call strict_handles _ (det_fs one_file)
              (det_openai constant_embedder) (det_index (λ _, true))
              ["/repo/f1"; "/repo/f2"] "idx" false [])
    = concat turns ++ [ConsoleLog line] ∧
    Forall2 one_attempt ["/repo/f1"; "/repo/f2"] turns.
Proof.
  apply (@no_call_is_retried strict_handles _ (det_fs one_file)
           (det_openai constant_embedder) (det_index (λ _, true))
           ["/repo/f1"; "/repo/f2"] "idx" false [] tt).
  reflexivity.
Defined.
